(** * Deployment safety pipeline of the contract:set command

    A shallow embedding of the contract deployment command
    (src/unnamed/part_000: [getDeployableFilesFromDir], [extractStruct],
    [compareTables], [checkDataExists], [SetContract.run]) and of the error
    classifier (src/unnamed/part_001: [ERROR_HINTS], [getHintForError],
    [parseDetailsError]).

    Pure helpers are Rocq functions.  Code that touches the disk, the chain or
    the terminal runs in a small state-and-exception monad over a record of
    collaborators ([World]); thrown JavaScript values are the type [Exn]. *)

From Stdlib Require Import ZArith Ascii String List Bool Lia.
From stdpp Require Import base option list strings pretty gmap.

Open Scope string_scope.

(** ** JavaScript strings

    A string is modelled by its sequence of bytes.  Case folding is the ASCII
    one: bytes outside [A-Z] are left alone, which is what the [i] flag of a
    non-unicode RegExp does to the ASCII patterns of this program, and what
    [toLowerCase] does on ASCII text. *)
Module Js.

Definition lowerChar (c : ascii) : ascii :=
  let n := nat_of_ascii c in
  if (65 <=? n)%nat && (n <=? 90)%nat then ascii_of_nat (n + 32) else c.

Fixpoint toLowerCase (s : string) : string :=
  match s with
  | EmptyString => EmptyString
  | String c r => String (lowerChar c) (toLowerCase r)
  end.

(** [startsWith s p]: [p] is a prefix of [s]. *)
Fixpoint startsWith (s p : string) {struct p} : bool :=
  match p, s with
  | EmptyString, _ => true
  | String _ _, EmptyString => false
  | String a p', String b s' => if Ascii.eqb a b then startsWith s' p' else false
  end.

(** [s.includes(p)]: [p] occurs somewhere in [s]. *)
Fixpoint includes (s p : string) : bool :=
  startsWith s p ||
  match s with
  | EmptyString => false
  | String _ s' => includes s' p
  end.

(** [s] ends with [p]: some suffix of [s] is exactly [p]. *)
Fixpoint endsWith (s p : string) : bool :=
  String.eqb s p ||
  match s with
  | EmptyString => false
  | String _ s' => endsWith s' p
  end.

(** Text after the prefix [p] of [s], when [s] starts with [p]. *)
Fixpoint stripPrefix (s p : string) {struct p} : option string :=
  match p, s with
  | EmptyString, _ => Some s
  | String _ _, EmptyString => None
  | String a p', String b s' => if Ascii.eqb a b then stripPrefix s' p' else None
  end.

(** [s.split('/')]: the pieces between separators; never the empty list. *)
Fixpoint splitOn (sep : ascii) (s : string) : list string :=
  match s with
  | EmptyString => [EmptyString]
  | String c r =>
      if Ascii.eqb c sep then EmptyString :: splitOn sep r
      else match splitOn sep r with
           | [] => [String c EmptyString]
           | x :: xs => String c x :: xs
           end
  end.

(** [arr.join(sep)]. *)
Fixpoint joinWith (sep : string) (l : list string) : string :=
  match l with
  | [] => EmptyString
  | [x] => x
  | x :: r => x ++ sep ++ joinWith sep r
  end.

(** The regular expressions of the program are alternations of literal
    texts, possibly anchored, possibly case-insensitive.  A leading [.*] in an
    unanchored search changes nothing and is dropped. *)
Record RegExp := {
  alternatives : list string;
  anchorStart : bool;
  anchorEnd : bool;
  ignoreCase : bool
}.

Definition fold (r : RegExp) (s : string) : string :=
  if ignoreCase r then toLowerCase s else s.

Definition matchAlt (r : RegExp) (s alt : string) : bool :=
  match anchorStart r, anchorEnd r with
  | false, false => includes (fold r s) (fold r alt)
  | true, false => startsWith (fold r s) (fold r alt)
  | false, true => endsWith (fold r s) (fold r alt)
  | true, true => String.eqb (fold r s) (fold r alt)
  end.

(** [r.test(s)], and the truthiness of [s.match(r)]. *)
Definition test (r : RegExp) (s : string) : bool :=
  existsb (matchAlt r s) (alternatives r).

(** [/a|b/i] *)
Definition searchI (alts : list string) : RegExp :=
  {| alternatives := alts; anchorStart := false; anchorEnd := false; ignoreCase := true |}.

(** A string is truthy when it is not empty. *)
Definition truthy (s : string) : bool := negb (String.eqb s "").

(** [a || b] on strings. *)
Definition orElse (a b : string) : string := if truthy a then a else b.

End Js.

(** ** Error classifier (src/unnamed/part_001) *)

Inductive Pattern :=
| PString (s : string)
| PRegExp (r : Js.RegExp).

Record ErrorHint := { pattern : Pattern; hint : string }.

Definition ERROR_HINTS : list ErrorHint := [
  {| pattern := PRegExp (Js.searchI ["insufficient ram"]);
     hint := "Try buying more RAM: proton ram:buy <account> <account> <bytes>" |};
  {| pattern := PRegExp (Js.searchI ["tx_cpu_usage_exceeded"; "billed CPU time"]);
     hint := "CPU limit exceeded. Wait a few minutes for your CPU to reset, or stake more XPR for resources." |};
  {| pattern := PRegExp (Js.searchI ["tx_net_usage_exceeded"]);
     hint := "NET limit exceeded. Wait a few minutes for your NET to reset, or stake more XPR for resources." |};
  {| pattern := PRegExp (Js.searchI ["unknown key"]);
     hint := "The signing key is not available. Make sure you have added the correct private key: proton key:add" |};
  {| pattern := PRegExp (Js.searchI ["overdrawn balance"; "insufficient funds"]);
     hint := "Insufficient token balance for this transaction." |};
  {| pattern := PRegExp (Js.searchI ["missing authority"; "missing required authority"]);
     hint := "You don't have permission to perform this action. Check the account and permission." |};
  {| pattern := PRegExp (Js.searchI ["deadline exceeded"]);
     hint := "Transaction timed out. The network may be congested, try again." |};
  {| pattern := PRegExp (Js.searchI ["duplicate transaction"]);
     hint := "This exact transaction was already submitted. Wait a moment before retrying." |};
  {| pattern := PRegExp (Js.searchI ["account does not exist"]);
     hint := "The specified account doesn't exist on this network." |}
].

(** The [for ... of] loop of [getHintForError] over a list of entries; the
    first [return] leaves the loop. *)
Fixpoint getHintIn (hints : list ErrorHint) (errorMessage : string) : option string :=
  match hints with
  | [] => None
  | h :: rest =>
      match pattern h with
      | PString p =>
          if Js.includes (Js.toLowerCase errorMessage) (Js.toLowerCase p)
          then Some (hint h)
          else getHintIn rest errorMessage
      | PRegExp r =>
          if Js.test r errorMessage then Some (hint h)
          else getHintIn rest errorMessage
      end
  end.

Definition getHintForError (errorMessage : string) : option string :=
  getHintIn ERROR_HINTS errorMessage.

(** ** Schemas (RpcInterfaces.Abi, the parts the differ reads) *)

Record AbiField := { field_name : string; field_type : string }.

Record AbiStruct := {
  struct_name : string;
  struct_base : string;
  struct_fields : list AbiField
}.

Record AbiTable := {
  table_name : string;
  table_type : string;
  table_index_type : string;
  table_key_names : list string;
  table_key_types : list string
}.

Record Abi := { structs : list AbiStruct; tables : list AbiTable }.

#[global] Instance AbiField_eq_dec : EqDecision AbiField.
Proof. solve_decision. Defined.
#[global] Instance AbiStruct_eq_dec : EqDecision AbiStruct.
Proof. solve_decision. Defined.

(** lodash's [isEqual] on two optional record descriptors: deep structural
    equality, with [undefined] equal to [undefined] only. *)
Definition isEqual (a b : option AbiStruct) : bool := bool_decide (a = b).

(** [Array.prototype.findIndex]: the first index that satisfies [p], or -1. *)
Fixpoint findIndexFrom {A} (p : A -> bool) (l : list A) (i : Z) : Z :=
  match l with
  | [] => (-1)%Z
  | x :: r => if p x then i else findIndexFrom p r (i + 1)%Z
  end.

Definition findIndex {A} (p : A -> bool) (l : list A) : Z := findIndexFrom p l 0%Z.

(** [Array.prototype.find]. *)
Definition extractStruct (abiStructs : list AbiStruct) (structName : string)
  : option AbiStruct :=
  List.find (fun item => String.eqb (struct_name item) structName) abiStructs.

Record TablesToCheck := { removed : list string; updated : list string }.

(** The callback of the [reduce] in [compareTables]; [push] appends. *)
Definition compareStep (existingABI newAbi : Abi) (accum : TablesToCheck)
    (table : AbiTable) : TablesToCheck :=
  if (findIndex (fun item => String.eqb (table_name item) (table_name table))
        (tables newAbi) <? 0)%Z
  then {| removed := removed accum ++ [table_name table]; updated := updated accum |}
  else
    let existingStruct := extractStruct (structs existingABI) (table_type table) in
    let newStruct := extractStruct (structs newAbi) (table_type table) in
    if negb (isEqual existingStruct newStruct)
    then {| removed := removed accum; updated := updated accum ++ [table_name table] |}
    else accum.

Definition compareTables (existingABI newAbi : Abi) : TablesToCheck :=
  fold_left (compareStep existingABI newAbi) (tables existingABI)
    {| removed := []; updated := [] |}.

(** ** Thrown values, collaborators and the effect monad *)

(** What the program throws or sees thrown.  [Raised] is an error of a
    collaborator (file system, chain client, argument parser, follow-up
    command) with its optional [details[0].message] and its [message]. *)
Inductive Exn :=
| CannotFind (kind dir : string)
| OnlyOneAllowed (dir : string)
| WrongNetwork (current expected : string)
| Raised (details0 message : string).

Definition dquote : string := String (ascii_of_nat 34) EmptyString.

Definition exn_details0 (e : Exn) : string :=
  match e with Raised d _ => d | _ => EmptyString end.

Definition exn_message (e : Exn) : string :=
  match e with
  | CannotFind kind dir =>
      "Cannot find a " ++ dquote ++ "." ++ kind ++ " file" ++ dquote ++ " in " ++ dir
  | OnlyOneAllowed dir => "Directory " ++ dir ++ " must contain only 1 WASM and 1 ABI"
  | WrongNetwork c x =>
      "Wrong network " ++ dquote ++ c ++ dquote ++ ". " ++ dquote ++ x ++ dquote ++ " is expected"
  | Raised _ m => m
  end.

Inductive res (A : Type) :=
| Ok (a : A)
| Threw (e : Exn).
Arguments Ok {A} a.
Arguments Threw {A} e.

Record Flags := { clear : bool; abiOnly : bool; wasmOnly : bool; disableInline : bool }.

Record Authorization := { actor : string; permission : string }.

Inductive ActionData :=
| SetCodeData (account : string) (vmtype vmversion : Z) (code : string)
| SetAbiData (account : string) (abi : string).

Record Action := {
  act_account : string;
  act_name : string;
  act_data : ActionData;
  act_authorization : list Authorization
}.

Inductive LogMsg :=
| FoundContractFile
| SourceIsGitHub
| CannotDownload (file : string) (error : Exn)
| DownloadCompleted
| CheckingExisting
| DataWarning (warning : string)
| NoIssueFound
| WasmSuccess (deployText : string)
| AbiSuccess (deployText : string)
| ViewTX (transaction_id : string)
| ErrorText (errorMessage : string)
| ErrorDump (e : Exn)
| HintText (hint : string).

(** What an observer of the terminal and of the chain client sees. *)
Inductive Event :=
| Log (m : LogMsg)
| Prompt (name : string) (answer : bool)
| Transact (actions : list Action)
| EnableInline (account : string).

(** The collaborators of one run.  [parse] is the argument parser applied to
    the list of positional arguments still expected; [readAbiFile] is
    [JSON.parse(readFileSync(path, 'utf8'))] with the fields of [abi_def]
    that the file leaves out set to []; [serialize] is [abi_def]'s binary
    encoder followed by the hex dump. *)
Record World := {
  contractFile : option (gmap string string);
  chain : string;
  parse : list string -> res (gmap string string * Flags);
  answer : string -> bool;
  makeTemp : res string;
  fetch : string -> string -> res unit;
  readFile : string -> res string;
  readAbiFile : string -> res Abi;
  get_abi : string -> res (option Abi);
  get_table_by_scope : string -> string -> res (list string);
  serialize : Abi -> res string;
  transact : list Action -> res string;
  enableInline : string -> res unit
}.

(** The disk maps a directory to its listing; the trace grows at its end. *)
Record State := { disk : gmap string (list string); trace : list Event }.

Definition M (A : Type) : Type := State -> res A * State.

#[global] Instance M_ret : MRet M := fun A a st => (Ok a, st).
#[global] Instance M_bind : MBind M := fun A B f m st =>
  match m st with
  | (Ok a, st') => f a st'
  | (Threw e, st') => (Threw e, st')
  end.

Definition throw {A} (e : Exn) : M A := fun st => (Threw e, st).

(** [try { m } catch (error) { h error }] *)
Definition tryCatch {A} (m : M A) (h : Exn -> M A) : M A := fun st =>
  match m st with
  | (Ok a, st') => (Ok a, st')
  | (Threw e, st') => h e st'
  end.

(** The outcome of a collaborator, rethrown when it is an error. *)
Definition lift {A} (r : res A) : M A := fun st => (r, st).

Definition emit (ev : Event) : M unit := fun st =>
  (Ok tt, {| disk := disk st; trace := (trace st ++ [ev])%list |}).

Definition log (m : LogMsg) : M unit := emit (Log m).

(** [Promise.all(l.map(f))] for an [f] whose promise never rejects. *)
Fixpoint forEach {A B} (f : A -> M B) (l : list A) : M (list B) :=
  match l with
  | [] => mret []
  | x :: r => y ← f x; ys ← forEach f r; mret (y :: ys)
  end.

(** ** File system primitives *)

(** [path.join] of a directory and an entry name. *)
Definition join (dir name : string) : string := dir ++ "/" ++ name.

(** [mkdtemp]: a new, empty directory. *)
Definition mkdtemp (w : World) : M string := fun st =>
  match makeTemp w with
  | Ok folder => (Ok folder, {| disk := <[folder := []]> (disk st); trace := trace st |})
  | Threw e => (Threw e, st)
  end.

(** [download(url, join(folder, file))]: on status 200 the file is written. *)
Definition download (w : World) (url folder file : string) : M unit := fun st =>
  match fetch w url (join folder file) with
  | Ok _ =>
      (Ok tt, {| disk := alter (fun l => (l ++ [file])%list) folder (disk st); trace := trace st |})
  | Threw e => (Threw e, st)
  end.

Definition readdirSync (dir : string) : M (list string) := fun st =>
  match disk st !! dir with
  | Some l => (Ok l, st)
  | None => (Threw (Raised EmptyString ("ENOENT: no such file or directory, scandir " ++ dir)), st)
  end.

(** [rmSync(folder, {recursive: true})] *)
Definition rmSync (folder : string) : M unit := fun st =>
  match disk st !! folder with
  | Some _ => (Ok tt, {| disk := delete folder (disk st); trace := trace st |})
  | None => (Threw (Raised EmptyString ("ENOENT: no such file or directory, rm " ++ folder)), st)
  end.

(** ** Artifact resolver: [getDeployableFilesFromDir] *)

Record Deployable := { wasmPath : string; abiPath : string; tmpFolder : string }.

(** [/^https:\/\/github\.com/] *)
Definition githubRe : Js.RegExp :=
  {| Js.alternatives := ["https://github.com"]; Js.anchorStart := true;
     Js.anchorEnd := false; Js.ignoreCase := false |}.

(** [/.*\.(wasm)$/gi] and [/.*\.(abi)$/gi] *)
Definition extRe (ext : string) : Js.RegExp :=
  {| Js.alternatives := ["." ++ ext]; Js.anchorStart := false;
     Js.anchorEnd := true; Js.ignoreCase := true |}.

(** [dir.replace(/^https:\/\/github\.com\//, '')] *)
Definition stripGithub (dir : string) : string :=
  match Js.stripPrefix dir "https://github.com/" with
  | Some rest => rest
  | None => dir
  end.

(** [arr.splice(2, 1)], the array afterwards. *)
Definition splice_2_1 {A} (arr : list A) : list A := (take 2 arr ++ drop 3 arr)%list.

Definition wasmsOf (dirCont : list string) : list string :=
  List.filter (fun filePath => Js.test (extRe "wasm") filePath) dirCont.

Definition abisOf (dirCont : list string) : list string :=
  List.filter (fun filePath => Js.test (extRe "abi") filePath) dirCont.

Section Pipeline.

Variable w : World.

(** One element of the [['wasm', 'abi'].map] of the resolver: the download
    with its [.then(() => true).catch(...)]. *)
Definition downloadExt (tmpFolder : string) (dirArr : list string)
    (contractName ext : string) : M bool :=
  let rawFile := "https://raw.githubusercontent.com/" ++ Js.joinWith "/" dirArr
                 ++ "/" ++ contractName ++ "." ++ ext in
  tryCatch
    (download w rawFile tmpFolder (contractName ++ "." ++ ext) ≫= fun _ => mret true)
    (fun error =>
       log (CannotDownload (contractName ++ "." ++ ext) error) ≫= fun _ => mret false).

(** Lines 59-89: the branch taken when the source is a GitHub URL; its
    value is [tmpFolder]. *)
Definition stageFromGitHub (dir : string) : M string :=
  _ ← log SourceIsGitHub;
  tmpFolder ← mkdtemp w;
  let dirArr := splice_2_1 (Js.splitOn "/" (stripGithub dir)) in
  let contractName := List.last dirArr EmptyString in
  allDownloaded ← forEach (downloadExt tmpFolder dirArr contractName) ["wasm"; "abi"];
  _ ← (if forallb (fun status => status) allDownloaded
       then log DownloadCompleted else mret tt);
  mret tmpFolder.

Definition getDeployableFilesFromDir (dir : string) : M Deployable :=
  '(dir, tmpFolder) ←
    (if Js.test githubRe dir then
       tmpFolder ← stageFromGitHub dir;
       mret (tmpFolder, tmpFolder)
     else mret (dir, EmptyString));
  dirCont ← readdirSync dir;
  let wasms := wasmsOf dirCont in
  let abis := abisOf dirCont in
  if (length wasms =? 0)%nat then throw (CannotFind "wasm" dir)
  else if (length abis =? 0)%nat then throw (CannotFind "abi" dir)
  else if (1 <? length wasms)%nat || (1 <? length abis)%nat then throw (OnlyOneAllowed dir)
  else mret {| wasmPath := join dir (List.nth 0 wasms EmptyString);
               abiPath := join dir (List.nth 0 abis EmptyString);
               tmpFolder := tmpFolder |}.

(** ** Risk assessor: [checkDataExists] *)

(** The callback mapped over [tables]: the name, or [null] (here [None]). *)
Definition probe (account tableName : string) : M (option string) :=
  hasData ← tryCatch
    (rows ← lift (get_table_by_scope w account tableName);
     mret (0 <? length rows)%nat)
    (fun _ => mret false);
  mret (if hasData : bool then Some tableName else None).

Definition checkDataExists (account : string) (tables : list string)
  : M (list (option string)) :=
  data ← forEach (probe account) tables;
  mret (List.filter (fun item => bool_decide (item ≠ None)) data).

(** [names.join('\n    ')] of a list returned by [checkDataExists]. *)
Definition joinNames (names : list (option string)) : string :=
  Js.joinWith (String (ascii_of_nat 10) "    ") (List.map (default "null") names).

(** ** Error report: [parseDetailsError]

    Every thrown value of the model is an object, so the branch that prints a
    structured dump of a non-object is not reachable here. *)
Definition parseDetailsError (e : Exn) : M unit :=
  let error := exn_details0 e in
  let errorMessage := Js.orElse error (Js.orElse (exn_message e) EmptyString) in
  _ ← log (if Js.truthy errorMessage then ErrorText errorMessage else ErrorDump e);
  match getHintForError errorMessage with
  | Some hint => if Js.truthy hint then log (HintText hint) else mret tt
  | None => mret tt
  end.

(** ** The command: [SetContract.run] *)

Definition readContractEnvFile : M (gmap string string) :=
  match contractFile w with
  | Some contractEnv =>
      _ ← (if (0 <? size contractEnv)%nat then log FoundContractFile else mret tt);
      mret contractEnv
  | None => mret ∅
  end.

Definition prompt (name : string) : M bool :=
  _ ← emit (Prompt name (answer w name)); mret (answer w name).

(** A property of [contractConfig] or [args]; [undefined] reads as empty. *)
Definition prop (o : gmap string string) (key : string) : string :=
  default EmptyString (o !! key).

(** The local variables of [run] that the block under [if (!flags.clear)]
    assigns. *)
Record Prepared := {
  wasm : string;
  abi : string;
  folderToCleanup : string;
  canDeploy : bool
}.

Definition notPrepared : Prepared :=
  {| wasm := EmptyString; abi := EmptyString; folderToCleanup := EmptyString;
     canDeploy := true |}.

(** One of the two risk checks of [run]: the text added to [warning]. *)
Definition riskWarning (account verb : string) (names : list string) : M string :=
  if (0 <? length names)%nat then
    found ← checkDataExists account names;
    mret (if (0 <? length found)%nat
          then "The following tables you are going to " ++ verb ++ " have rows:"
               ++ String (ascii_of_nat 10) "    " ++ joinNames found
               ++ String (ascii_of_nat 10) EmptyString
          else EmptyString)
  else mret EmptyString.

(** Lines 265-323: resolve, read, diff, assess, confirm, serialize. *)
Definition prepare (args : gmap string string) : M Prepared :=
  d ← getDeployableFilesFromDir (prop args "source");
  wasm ← lift (readFile w (wasmPath d));
  abiFields ← lift (readAbiFile w (abiPath d));
  _ ← log CheckingExisting;
  existingABI ← lift (get_abi w (prop args "account"));
  warning ←
    match existingABI with
    | Some existing =>
        let tablesToCheck := compareTables existing abiFields in
        w1 ← riskWarning (prop args "account") "remove" (removed tablesToCheck);
        w2 ← riskWarning (prop args "account") "change" (updated tablesToCheck);
        mret (w1 ++ w2)
    | None => mret EmptyString
    end;
  canDeploy ←
    (if Js.truthy warning then
       _ ← log (DataWarning (warning ++ "Deploy of the contract may corrupt the data"));
       prompt "confirmedToContinue"
     else
       _ ← log NoIssueFound; mret true);
  abi ← lift (serialize w abiFields);
  mret {| wasm := wasm; abi := abi; folderToCleanup := tmpFolder d; canDeploy := canDeploy |}.

Definition activeAuth (account : string) : list Authorization :=
  [{| actor := account; permission := "active" |}].

Definition setcodeAction (account code : string) : Action :=
  {| act_account := "eosio"; act_name := "setcode";
     act_data := SetCodeData account 0 0 code;
     act_authorization := activeAuth account |}.

Definition setabiAction (account abi : string) : Action :=
  {| act_account := "eosio"; act_name := "setabi";
     act_data := SetAbiData account abi;
     act_authorization := activeAuth account |}.

(** [network.transact({actions})]: the attempt is observable, then the
    outcome is the chain client's. *)
Definition submit (actions : list Action) : M string :=
  _ ← emit (Transact actions); lift (transact w actions).

(** Lines 326-384: the block under [if (canDeploy)]. *)
Definition deploy (args : gmap string string) (flags : Flags) (p : Prepared) : M unit :=
  let deployText := if clear flags then "Cleared" else "Deployed" in
  _ ← (if negb (abiOnly flags) then
         tryCatch
           (r ← submit [setcodeAction (prop args "account") (wasm p)];
            _ ← log (WasmSuccess deployText);
            log (ViewTX r))
           parseDetailsError
       else mret tt);
  _ ← (if negb (wasmOnly flags) then
         tryCatch
           (r ← submit [setabiAction (prop args "account") (abi p)];
            _ ← log (AbiSuccess deployText);
            log (ViewTX r))
           parseDetailsError
       else mret tt);
  if negb (disableInline flags) then
    _ ← emit (EnableInline (prop args "account"));
    lift (enableInline w (prop args "account"))
  else mret tt.

(** Lines 215-232: what the .contract file presets.  The result is
    [presetValues], the initial [confirmed] and [options.args] (by name). *)
Definition presets (contractConfig : gmap string string)
  : gmap string string * bool * list string :=
  let ACCOUNT := prop contractConfig "ACCOUNT" in
  let SOURCE := prop contractConfig "SOURCE" in
  let '(presetValues, confirmed, optionArgs) :=
    if Js.truthy ACCOUNT
    then (({["account" := ACCOUNT]} : gmap string string), true, ([] : list string))
    else (∅, false, ["account"]) in
  if Js.truthy SOURCE
  then (<["source" := SOURCE]> presetValues, confirmed, optionArgs)
  else (presetValues, confirmed, (optionArgs ++ ["source"])%list).

(** Lines 261-389: the block under [if (confirmed)]. *)
Definition deployConfirmed (args : gmap string string) (flags : Flags) : M unit :=
  p ← (if negb (clear flags) then prepare args else mret notPrepared);
  _ ← (if canDeploy p then deploy args flags p else mret tt);
  if Js.truthy (folderToCleanup p) then rmSync (folderToCleanup p) else mret tt.

Definition run : M unit :=
  contractConfig ← readContractEnvFile;
  let NETWORK := prop contractConfig "NETWORK" in
  let expectedNetwork :=
    if Js.truthy NETWORK && negb (String.eqb (chain w) NETWORK)
    then NETWORK else EmptyString in
  let '(presetValues, confirmed, optionArgs) := presets contractConfig in
  if Js.truthy expectedNetwork then throw (WrongNetwork (chain w) expectedNetwork)
  else
    '(argsInput, flags) ← lift (parse w optionArgs);
    let args := presetValues ∪ argsInput in
    confirmed ← (if negb confirmed then prompt "confirmedContract" else mret confirmed);
    if confirmed : bool then deployConfirmed args flags else mret tt.

End Pipeline.

(** ** Commands outside the deployment pipeline: values and effects

    The RAM purchase and the funded account creation
    (src/src/commands/ram/buy.ts) print lines, store a key and submit
    operations of their own; they share [parseDetailsError] with the
    deployment command. *)

(** Character classes of regular expressions, on one string. *)
Module JsClass.

(** The characters of [s], in order. *)
Fixpoint chars (s : string) : list ascii :=
  match s with
  | EmptyString => []
  | String c r => c :: chars r
  end.

Definition between (lo hi : nat) (c : ascii) : bool :=
  (lo <=? nat_of_ascii c)%nat && (nat_of_ascii c <=? hi)%nat.

(** [/[cls]/.test(s)] *)
Definition testAny (cls : ascii -> bool) (s : string) : bool :=
  existsb cls (chars s).

(** [/^[cls]+$/.test(s)] *)
Definition testAll (cls : ascii -> bool) (s : string) : bool :=
  negb (String.eqb s EmptyString) && forallb cls (chars s).

(** [s.match(/[cls]/g)], the matches as one-character strings. *)
Definition matchAll (cls : ascii -> bool) (s : string) : list string :=
  List.map (fun c => String c EmptyString) (List.filter cls (chars s)).

(** Every code unit of [s] is an ASCII one. *)
Definition isAscii (s : string) : bool := forallb (between 0 127) (chars s).

End JsClass.

Inductive JsValue :=
| JsString (s : string)
| JsNumber (n : Z).

Record KeyWeight := { kw_key : string; kw_weight : Z }.

Record AccountWeight := { aw_weight : Z; aw_permission : Authorization }.

Record Authority := {
  threshold : Z;
  keys : list KeyWeight;
  accounts : list AccountWeight;
  waits : list unit
}.

Inductive OperationData :=
| NewAccount (creator name : string) (owner active : Authority)
| BuyRamBytes (payer receiver : string) (bytes : JsValue)
| NewAccRes (account : string).

Record Operation := {
  op_account : string;
  op_name : string;
  op_authorization : list Authorization;
  op_data : OperationData
}.

(** What these commands leave behind, in order. *)
Inductive Output :=
| Line (text : string)
| StyledJSON (fields : list (string * string))
| Link (label url : string)
| Printed (ev : Event)
| Submitted (actions : list Operation)
| StoredKey (privateKey : string).

(** The collaborators: the chain client, the key generator, the key store,
    the explorer address and the number formatter of the runtime. *)
Record Services := {
  get_account : string -> res unit;
  newKeyPair : string * string * string;
  addPrivateKey : string -> res unit;
  send : list Operation -> res string;
  getExplorer : string;
  toLocaleString : string -> string
}.

Definition Cmd (A : Type) : Type := list Output -> res A * list Output.

#[global] Instance Cmd_ret : MRet Cmd := fun A a out => (Ok a, out).
#[global] Instance Cmd_bind : MBind Cmd := fun A B f m out =>
  match m out with
  | (Ok a, out') => f a out'
  | (Threw e, out') => (Threw e, out')
  end.

Definition raise {A} (e : Exn) : Cmd A := fun out => (Threw e, out).

Definition attempt {A} (r : res A) : Cmd A := fun out => (r, out).

Definition put (o : Output) : Cmd unit := fun out => (Ok tt, (out ++ [o])%list).

(** [try { m } catch (error) { h error }] *)
Definition catching {A} (m : Cmd A) (h : Exn -> Cmd A) : Cmd A := fun out =>
  match m out with
  | (Ok a, out') => (Ok a, out')
  | (Threw e, out') => h e out'
  end.

(** [parseDetailsError(e)] called from these commands: what it prints. *)
Definition printError (e : Exn) : Cmd unit := fun out =>
  let '(r, st) := parseDetailsError e {| disk := ∅; trace := [] |} in
  (r, (out ++ List.map Printed (trace st))%list).

(** [new Error(message)] *)
Definition newError (message : string) : Exn := Raised EmptyString message.

(** ** RAM purchase: [RamBuy.run] *)
Module RamBuy.

Record Args := { buyer : string; receiver : string; bytes : string }.

Section Run.

Variable s : Services.

(** [parsed] is the outcome of [this.parse(RamBuy)]: the arguments and the
    authorization flag, empty when it is not given. *)
Definition run (parsed : res (Args * string)) : Cmd unit :=
  '(args, authorization) ← attempt parsed;
  let pieces := if Js.truthy authorization
                then Js.splitOn "@" authorization
                else [buyer args] in
  let actor := List.nth 0 pieces EmptyString in
  let permission := List.nth 1 pieces EmptyString in
  catching
    (_ ← put (Submitted
         [{| op_account := "eosio"; op_name := "buyrambytes";
             op_authorization :=
               [{| actor := actor; permission := Js.orElse permission "active" |}];
             op_data := BuyRamBytes actor (receiver args) (JsString (bytes args)) |}]);
     _ ← attempt (send s
         [{| op_account := "eosio"; op_name := "buyrambytes";
             op_authorization :=
               [{| actor := actor; permission := Js.orElse permission "active" |}];
             op_data := BuyRamBytes actor (receiver args) (JsString (bytes args)) |}]);
     _ ← put (Line "✓ RAM Purchased");
     _ ← put (Line ("  Buyer: " ++ actor));
     _ ← put (Line ("  Receiver: " ++ receiver args));
     put (Line ("  Bytes: " ++ toLocaleString s (bytes args))))
    printError.

End Run.

End RamBuy.

(** ** Funded account creation: [CreateFundedAccount.run] *)
Module CreateFundedAccount.

Record Flags := { creator : string; key : string; ram : Z; owner : string }.

(** [/[06789]/], [/[A-Z]/] and [/[a-z12345.]/] *)
Definition badDigit (c : ascii) : bool :=
  existsb (Ascii.eqb c) (JsClass.chars "06789").

Definition upperCase (c : ascii) : bool := JsClass.between 65 90 c.

Definition nameChar (c : ascii) : bool :=
  JsClass.between 97 122 c || existsb (Ascii.eqb c) (JsClass.chars "12345.").

Definition quoted (text : string) : string := dquote ++ text ++ dquote.

(** Lines 54-78: the checks of the account name; the value is
    [accountName]. *)
Definition checkName (account : string) : Cmd string :=
  let accountName := Js.toLowerCase account in
  if (String.length accountName <? 4)%nat || (12 <? String.length accountName)%nat
  then raise (newError
         ("Account name " ++ quoted accountName ++ " is "
          ++ pretty (String.length accountName)
          ++ " characters. Must be 4-12 characters long."))
  else if JsClass.testAny badDigit accountName
  then raise (newError
         ("Account name " ++ quoted accountName ++ " contains invalid digit(s): "
          ++ Js.joinWith ", " (JsClass.matchAll badDigit accountName)
          ++ ". Only digits 1-5 are allowed."))
  else
    _ ← (if JsClass.testAny upperCase account
         then put (Line ("Note: Account name converted to lowercase: " ++ accountName))
         else mret tt);
    if negb (JsClass.testAll nameChar accountName)
    then raise (newError
           ("Account name " ++ quoted accountName ++ " contains invalid character(s): "
            ++ Js.joinWith ", " (JsClass.matchAll (fun c => negb (nameChar c)) accountName)
            ++ ". Only a-z, 1-5, and periods are allowed."))
    else mret accountName.

Definition keyOnly (publicKey : string) : Authority :=
  {| threshold := 1; keys := [{| kw_key := publicKey; kw_weight := 1 |}];
     accounts := []; waits := [] |}.

(** [ownerPerm], after the optional [push] of the backup owner. *)
Definition ownerPerm (publicKey owner : string) : Authority :=
  {| threshold := 1; keys := [{| kw_key := publicKey; kw_weight := 1 |}];
     accounts :=
       if Js.truthy owner
       then [{| aw_weight := 1;
                aw_permission := {| actor := owner; permission := "active" |} |}]
       else [];
     waits := [] |}.

Definition creatorAuth (flags : Flags) : list Authorization :=
  [{| actor := creator flags; permission := "active" |}].

Definition actions (flags : Flags) (accountName publicKey : string) : list Operation :=
  [ {| op_account := "eosio"; op_name := "newaccount";
       op_authorization := creatorAuth flags;
       op_data := NewAccount (creator flags) accountName
                    (ownerPerm publicKey (owner flags)) (keyOnly publicKey) |};
    {| op_account := "eosio"; op_name := "buyrambytes";
       op_authorization := creatorAuth flags;
       op_data := BuyRamBytes (creator flags) accountName (JsNumber (ram flags)) |};
    {| op_account := "eosio.proton"; op_name := "newaccres";
       op_authorization := creatorAuth flags;
       op_data := NewAccRes accountName |} ].

Section Run.

Variable s : Services.

(** Lines 94-110: the public key of the new account; a generated key is
    shown and its private key is stored. *)
Definition choosePublicKey (flags : Flags) : Cmd string :=
  if negb (Js.truthy (key flags)) then
    let '(publicKey, privateKey, phrase) := newKeyPair s in
    _ ← put (Line "Generated new key pair:");
    _ ← put (StyledJSON [("public", publicKey); ("private", privateKey);
                        ("mnemonic", phrase)]);
    _ ← put (StoredKey privateKey);
    _ ← attempt (addPrivateKey s privateKey);
    mret publicKey
  else mret (key flags).

(** Lines 93-178: the creation itself, once the name and the RAM are
    checked and the chain does not know the account. *)
Definition createAccount (flags : Flags) (accountName : string) : Cmd unit :=
  publicKey ← choosePublicKey flags;
  _ ← put (Submitted (actions flags accountName publicKey));
  _ ← attempt (send s (actions flags accountName publicKey));
  _ ← put (Line ("Account " ++ accountName ++ " successfully created!"));
  _ ← put (Line ("Creator: " ++ creator flags));
  _ ← (if Js.truthy (owner flags)
       then put (Line ("Owner: " ++ owner flags ++ " (backup recovery account)"))
       else mret tt);
  _ ← put (Line ("RAM: " ++ pretty (ram flags) ++ " bytes"));
  _ ← put (Line "CPU/NET: delegated by wlcm.proton (free)");
  put (Link "View on explorer" (getExplorer s ++ "/account/" ++ accountName)).

(** [parsed] is the outcome of [this.parse(CreateFundedAccount)]. *)
Definition run (parsed : res (string * Flags)) : Cmd unit :=
  '(account, flags) ← attempt parsed;
  accountName ← checkName account;
  if (ram flags <? 3000)%Z
  then raise (newError "RAM must be at least 3000 bytes for a new account to function.")
  else
    match get_account s accountName with
    | Ok _ => put (Line ("Account " ++ accountName ++ " already exists"))
    | Threw _ => createAccount flags accountName
    end.

(** [catch(e)], the handler of the command class. *)
Definition catch (e : Exn) : Cmd unit := printError e.

End Run.

End CreateFundedAccount.

(** ** Vocabulary of the statements *)

(** [p] occurs in [s] when case is ignored. *)
Definition ciSubstring (p s : string) : Prop :=
  ∃ pre post, Js.toLowerCase s = pre ++ Js.toLowerCase p ++ post.

(** An entry of the matcher list matches a message. *)
Definition entryMatches (h : ErrorHint) (errorMessage : string) : Prop :=
  match pattern h with
  | PString p => ciSubstring p errorMessage
  | PRegExp r => Js.test r errorMessage = true
  end.

(** The matching test of [getHintForError] decides [entryMatches]. *)
Definition entryTest (h : ErrorHint) (errorMessage : string) : bool :=
  match pattern h with
  | PString p => Js.includes (Js.toLowerCase errorMessage) (Js.toLowerCase p)
  | PRegExp r => Js.test r errorMessage
  end.

(** The candidate schema has a table of that name. *)
Definition hasTable (abi : Abi) (name : string) : bool :=
  existsb (fun item => String.eqb (table_name item) name) (tables abi).

(** An existing table is classified as updated exactly when the candidate has
    a table of that name and the two lookups by the existing table's
    record-type name disagree. *)
Definition isUpdated (existingABI newAbi : Abi) (table : AbiTable) : bool :=
  hasTable newAbi (table_name table) &&
  negb (isEqual (extractStruct (structs existingABI) (table_type table))
                (extractStruct (structs newAbi) (table_type table))).

(** The query for [tableName] succeeds and returns at least one row. *)
Definition holdsData (w : World) (account tableName : string) : bool :=
  match get_table_by_scope w account tableName with
  | Ok rows => (0 <? length rows)%nat
  | Threw _ => false
  end.

(** The names of the operations submitted to the chain, in order. *)
Definition attempts (evs : list Event) : list string :=
  flat_map (fun ev => match ev with
                      | Transact actions => List.map act_name actions
                      | _ => []
                      end) evs.

(** What [parseDetailsError] prints for [e]: the message (or a dump of the
    value when it has none), then the classifier's hint if there is one. *)
Definition reportOf (e : Exn) : list Event :=
  let errorMessage := Js.orElse (exn_details0 e) (Js.orElse (exn_message e) EmptyString) in
  Log (if Js.truthy errorMessage then ErrorText errorMessage else ErrorDump e) ::
  match getHintForError errorMessage with
  | Some hint => if Js.truthy hint then [Log (HintText hint)] else []
  | None => []
  end.

(** The state [st] after the events [evs]. *)
Definition after (st : State) (evs : list Event) : State :=
  {| disk := disk st; trace := (trace st ++ evs)%list |}.

(** What one submission leaves on the trace after its attempt. *)
Definition outcomeEvents (success : LogMsg) (r : res string) : list Event :=
  match r with
  | Ok transaction_id => [Log success; Log (ViewTX transaction_id)]
  | Threw e => reportOf e
  end.

Definition deployText (flags : Flags) : string :=
  if clear flags then "Cleared" else "Deployed".

Definition codeEvents (w : World) (args : gmap string string) (flags : Flags)
    (p : Prepared) : list Event :=
  if abiOnly flags then []
  else Transact [setcodeAction (prop args "account") (wasm p)] ::
       outcomeEvents (WasmSuccess (deployText flags))
         (transact w [setcodeAction (prop args "account") (wasm p)]).

Definition schemaEvents (w : World) (args : gmap string string) (flags : Flags)
    (p : Prepared) : list Event :=
  if wasmOnly flags then []
  else Transact [setabiAction (prop args "account") (abi p)] ::
       outcomeEvents (AbiSuccess (deployText flags))
         (transact w [setabiAction (prop args "account") (abi p)]).

Definition enableEvents (args : gmap string string) (flags : Flags) : list Event :=
  if disableInline flags then [] else [EnableInline (prop args "account")].

(** The outcome of the block under [if (canDeploy)]: only the follow-up
    command can make it throw. *)
Definition enableOutcome (w : World) (args : gmap string string) (flags : Flags) : res unit :=
  if disableInline flags then Ok tt else enableInline w (prop args "account").

(** The submissions and the follow-up of a run that reaches them with the
    prepared values [p]; nothing when the run stops before. *)
Definition deployEvents (w : World) (args : gmap string string) (flags : Flags)
    (reached : option Prepared) : list Event :=
  match reached with
  | Some p => (codeEvents w args flags p ++ schemaEvents w args flags p
               ++ enableEvents args flags)%list
  | None => []
  end.

(** The event is the submission of the single operation called [name]. *)
Definition isAttempt (name : string) (ev : Event) : bool :=
  match ev with
  | Transact [a] => String.eqb (act_name a) name
  | _ => false
  end.

(** Every event that [m] adds to the trace satisfies [P]. *)
Definition emits (P : Event -> bool) {A} (m : M A) : Prop :=
  ∀ st, ∃ evs, trace (m st).2 = (trace st ++ evs)%list ∧ forallb P evs = true.

(** [m] leaves the disk as it is, and a value it returns satisfies [Q]. *)
Definition neutral {A} (Q : A -> Prop) (m : M A) : Prop :=
  ∀ st, disk (m st).2 = disk st ∧
        match (m st).1 with Ok a => Q a | Threw _ => True end.

(** Events of the stages before the submissions. *)
Definition preparatory (ev : Event) : bool :=
  match ev with
  | Prompt _ _ => true
  | Log (FoundContractFile | SourceIsGitHub | CannotDownload _ _ | DownloadCompleted
        | CheckingExisting | DataWarning _ | NoIssueFound) => true
  | _ => false
  end.

(** Events of a submission: the attempt and the report of its outcome. *)
Definition ofSubmission (ev : Event) : bool :=
  match ev with
  | Transact _ => true
  | Log (WasmSuccess _ | AbiSuccess _ | ViewTX _ | ErrorText _ | ErrorDump _ | HintText _) => true
  | _ => false
  end.

(** The arguments the parser is asked for in world [w]. *)
Definition expectedArgs (w : World) : list string :=
  (presets (default ∅ (contractFile w))).2.

(** The world [w] with the parser's answer replaced. *)
Definition withParse (w : World) (p : list string -> res (gmap string string * Flags)) : World :=
  {| contractFile := contractFile w; chain := chain w; parse := p; answer := answer w;
     makeTemp := makeTemp w; fetch := fetch w; readFile := readFile w;
     readAbiFile := readAbiFile w; get_abi := get_abi w;
     get_table_by_scope := get_table_by_scope w; serialize := serialize w;
     transact := transact w; enableInline := enableInline w |}.

Definition bothModes (f : Flags) (b : bool) : Flags :=
  {| clear := clear f; abiOnly := b; wasmOnly := b; disableInline := disableInline f |}.

(** The directory that [getDeployableFilesFromDir dir] lists. *)
Definition resolvedDir (w : World) (dir : string) : option string :=
  if Js.test githubRe dir
  then match makeTemp w with Ok folder => Some folder | Threw _ => None end
  else Some dir.

(** A matcher that looks at the message through its lower-case form only. *)
Definition foldsCase (h : ErrorHint) : Prop :=
  match pattern h with
  | PString _ => True
  | PRegExp r => Js.ignoreCase r = true
  end.

(** The address of the raw file with extension [ext] for the path pieces
    [kept] of a GitHub source, and the name it is stored under. *)
Definition stagedName (kept : list string) (ext : string) : string :=
  List.last kept EmptyString ++ "." ++ ext.

Definition rawFileOf (kept : list string) (ext : string) : string :=
  "https://raw.githubusercontent.com/" ++ Js.joinWith "/" kept ++ "/"
  ++ List.last kept EmptyString ++ "." ++ ext.

(** No [/] in a path piece. *)
Definition slashFree (piece : string) : Prop :=
  JsClass.testAny (Ascii.eqb "/"%char) piece = false.

(** What [readContractEnvFile] prints in world [w]. *)
Definition configEvents (w : World) : list Event :=
  match contractFile w with
  | Some contractEnv => if (0 <? size contractEnv)%nat then [Log FoundContractFile] else []
  | None => []
  end.

(** The .contract file names a network other than the connected one. *)
Definition wrongNetwork (w : World) : bool :=
  let NETWORK := prop (default ∅ (contractFile w)) "NETWORK" in
  Js.truthy NETWORK && negb (String.eqb (chain w) NETWORK).

(** The arguments of a run: what the .contract file presets, then what the
    parser returned. *)
Definition argsOf (w : World) (argsInput : gmap string string) : gmap string string :=
  (presets (default ∅ (contractFile w))).1.1 ∪ argsInput.

(** The event is the prompt called [name]. *)
Definition isPrompt (name : string) (ev : Event) : bool :=
  match ev with
  | Prompt asked _ => String.eqb asked name
  | _ => false
  end.

Definition isEnable (ev : Event) : bool :=
  match ev with
  | EnableInline _ => true
  | _ => false
  end.

(** The event is a line of [readContractEnvFile] or a declined prompt. *)
Definition idle (ev : Event) : bool :=
  match ev with
  | Log FoundContractFile => true
  | Prompt _ false => true
  | _ => false
  end.

(** Events of resolving, diffing and risk checking. *)
Definition resolving (ev : Event) : bool :=
  match ev with
  | Prompt name _ => String.eqb name "confirmedToContinue"
  | Log (SourceIsGitHub | CannotDownload _ _ | DownloadCompleted
        | CheckingExisting | DataWarning _ | NoIssueFound) => true
  | _ => false
  end.

(** The operation that the RAM purchase submits. *)
Definition ramOperation (actor permission receiver bytes : string) : Operation :=
  {| op_account := "eosio"; op_name := "buyrambytes";
     op_authorization := [{| actor := actor; permission := permission |}];
     op_data := BuyRamBytes actor receiver (JsString bytes) |}.

(** The transactions submitted among some outputs, in order. *)
Definition submitted (outs : list Output) : list (list Operation) :=
  omap (fun o => match o with Submitted ops => Some ops | _ => None end) outs.

(** No [@] in a piece of an authorization. *)
Definition atFree (piece : string) : Prop :=
  JsClass.testAny (Ascii.eqb "@"%char) piece = false.

(** An account name the creation command accepts: 4 to 12 characters, each
    a lower-case letter, a digit from 1 to 5 or a period. *)
Definition wellFormedName (name : string) : Prop :=
  (4 ≤ String.length name ≤ 12)%nat ∧
  forallb CreateFundedAccount.nameChar (JsClass.chars name) = true.

Definition isLine (o : Output) : bool :=
  match o with
  | Line _ => true
  | _ => false
  end.

Definition sampleServices : Services :=
  {| get_account := fun name =>
       if String.eqb name "alice" then Ok tt else Threw (newError "unknown key");
     newKeyPair := ("PUB_K1_generated", "PVT_K1_generated", "twelve words");
     addPrivateKey := fun _ => Ok tt;
     send := fun _ => Ok "tx9";
     getExplorer := "https://explorer.example";
     toLocaleString := fun text => text |}.

Definition sampleCreate : CreateFundedAccount.Flags :=
  {| CreateFundedAccount.creator := "funder"; CreateFundedAccount.key := EmptyString;
     CreateFundedAccount.ram := 3000; CreateFundedAccount.owner := "paul" |}.

(** What follows the submission of the RAM purchase [op]. *)
Definition purchaseOutcome (s : Services) (args : RamBuy.Args) (actor : string)
    (op : Operation) : list Output :=
  match send s [op] with
  | Ok _ => [Line "✓ RAM Purchased";
             Line ("  Buyer: " ++ actor);
             Line ("  Receiver: " ++ RamBuy.receiver args);
             Line ("  Bytes: " ++ toLocaleString s (RamBuy.bytes args))]
  | Threw e => List.map Printed (reportOf e)
  end.

(** The public key of the new account, what choosing it prints and stores,
    and the lines after an accepted creation. *)
Definition chosenKey (s : Services) (flags : CreateFundedAccount.Flags) : string :=
  if Js.truthy (CreateFundedAccount.key flags) then CreateFundedAccount.key flags
  else (newKeyPair s).1.1.

Definition keyOutputs (s : Services) (flags : CreateFundedAccount.Flags) : list Output :=
  if Js.truthy (CreateFundedAccount.key flags) then []
  else [Line "Generated new key pair:";
        StyledJSON [("public", (newKeyPair s).1.1); ("private", (newKeyPair s).1.2);
                    ("mnemonic", (newKeyPair s).2)];
        StoredKey (newKeyPair s).1.2].

Definition createdLines (s : Services) (flags : CreateFundedAccount.Flags)
    (accountName : string) : list Output :=
  ([Line ("Account " ++ accountName ++ " successfully created!");
    Line ("Creator: " ++ CreateFundedAccount.creator flags)]
   ++ (if Js.truthy (CreateFundedAccount.owner flags)
       then [Line ("Owner: " ++ CreateFundedAccount.owner flags
                   ++ " (backup recovery account)")]
       else [])
   ++ [Line ("RAM: " ++ pretty (CreateFundedAccount.ram flags) ++ " bytes");
       Line "CPU/NET: delegated by wlcm.proton (free)";
       Link "View on explorer" (getExplorer s ++ "/account/" ++ accountName)])%list.

(** The key store accepts the generated key, when one is generated. *)
Definition keyStored (s : Services) (flags : CreateFundedAccount.Flags) : Prop :=
  Js.truthy (CreateFundedAccount.key flags) = false →
  addPrivateKey s (newKeyPair s).1.2 = Ok tt.

Definition isKeyOutput (o : Output) : bool :=
  match o with
  | StyledJSON _ | StoredKey _ => true
  | _ => false
  end.

(** The note of the name check about a typed name with capitals. *)
Definition lowercaseNote (account : string) : list Output :=
  if JsClass.testAny CreateFundedAccount.upperCase account
  then [Line ("Note: Account name converted to lowercase: " ++ Js.toLowerCase account)]
  else [].

(** ** Sample worlds *)

Definition noFlags : Flags :=
  {| clear := false; abiOnly := false; wasmOnly := false; disableInline := false |}.

Definition bareWorld : World :=
  {| contractFile := None; chain := "proton";
     parse := fun _ => Ok ({["account" := "alice"; "source" := "/proj/target"]}, noFlags);
     answer := fun _ => true;
     makeTemp := Ok "/tmp/foo-Ab12Cd";
     fetch := fun _ _ => Ok tt;
     readFile := fun _ => Ok "wasm-bytes";
     readAbiFile := fun _ => Ok {| structs := []; tables := [] |};
     get_abi := fun _ => Ok None;
     get_table_by_scope := fun _ _ => Ok [];
     serialize := fun _ => Ok "0e";
     transact := fun _ => Ok "tx1";
     enableInline := fun _ => Ok tt |}.

Definition someStruct : AbiStruct :=
  {| struct_name := "account"; struct_base := "";
     struct_fields := [{| field_name := "balance"; field_type := "asset" |}] |}.

Definition tableOf (name type : string) : AbiTable :=
  {| table_name := name; table_type := type; table_index_type := "i64";
     table_key_names := []; table_key_types := [] |}.

(** A chain on which every table of every account holds one row. *)
Definition fullWorld : World :=
  {| contractFile := contractFile bareWorld; chain := chain bareWorld;
     parse := parse bareWorld; answer := answer bareWorld;
     makeTemp := makeTemp bareWorld; fetch := fetch bareWorld;
     readFile := readFile bareWorld; readAbiFile := readAbiFile bareWorld;
     get_abi := get_abi bareWorld;
     get_table_by_scope := fun _ _ => Ok ["{}"];
     serialize := serialize bareWorld; transact := transact bareWorld;
     enableInline := enableInline bareWorld |}.

(** A chain client that refuses the code replacement for lack of RAM. *)
Definition codeRefused : World :=
  {| contractFile := contractFile bareWorld; chain := chain bareWorld;
     parse := parse bareWorld; answer := answer bareWorld;
     makeTemp := makeTemp bareWorld; fetch := fetch bareWorld;
     readFile := readFile bareWorld; readAbiFile := readAbiFile bareWorld;
     get_abi := get_abi bareWorld;
     get_table_by_scope := get_table_by_scope bareWorld;
     serialize := serialize bareWorld;
     transact := fun actions =>
       if forallb (fun a => String.eqb (act_name a) "setcode") actions
       then Threw (Raised "account alice has insufficient ram" "Internal Service Error")
       else Ok "tx2";
     enableInline := enableInline bareWorld |}.

Definition sampleArgs : gmap string string :=
  {["account" := "alice"; "source" := "/proj/target"]}.

Definition bothOnly : Flags :=
  {| clear := false; abiOnly := true; wasmOnly := true; disableInline := false |}.

(** A GitHub source whose bytecode file is missing (status 404). *)
Definition remoteArgs : gmap string string :=
  {["account" := "alice"; "source" := "https://github.com/org/repo/tree/main/token"]}.

Definition bytecodeMissing : World :=
  {| contractFile := None; chain := "proton";
     parse := fun _ => Ok (remoteArgs, noFlags);
     answer := fun _ => true;
     makeTemp := Ok "/tmp/foo-Ab12Cd";
     fetch := fun url _ =>
       if Js.endsWith url ".wasm"
       then Threw (Raised EmptyString
                     "Download request failed, response status: 404 Not Found")
       else Ok tt;
     readFile := fun _ => Ok "wasm-bytes";
     readAbiFile := fun _ => Ok {| structs := []; tables := [] |};
     get_abi := fun _ => Ok None;
     get_table_by_scope := fun _ _ => Ok [];
     serialize := fun _ => Ok "0e";
     transact := fun _ => Ok "tx1";
     enableInline := fun _ => Ok tt |}.

(** A GitHub source that downloads, and a chain whose schema query fails. *)
Definition schemaQueryFails : World :=
  {| contractFile := None; chain := "proton";
     parse := fun _ => Ok (remoteArgs, noFlags);
     answer := fun _ => true;
     makeTemp := Ok "/tmp/foo-Ab12Cd";
     fetch := fun _ _ => Ok tt;
     readFile := fun _ => Ok "wasm-bytes";
     readAbiFile := fun _ => Ok {| structs := []; tables := [] |};
     get_abi := fun _ => Threw (Raised EmptyString "connect ECONNREFUSED");
     get_table_by_scope := fun _ _ => Ok [];
     serialize := fun _ => Ok "0e";
     transact := fun _ => Ok "tx1";
     enableInline := fun _ => Ok tt |}.

(** A GitHub source that downloads, and a schema that cannot be encoded. *)
Definition encodingFails : World :=
  {| contractFile := None; chain := "proton";
     parse := fun _ => Ok (remoteArgs, noFlags);
     answer := fun _ => true;
     makeTemp := Ok "/tmp/foo-Ab12Cd";
     fetch := fun _ _ => Ok tt;
     readFile := fun _ => Ok "wasm-bytes";
     readAbiFile := fun _ => Ok {| structs := []; tables := [] |};
     get_abi := fun _ => Ok None;
     get_table_by_scope := fun _ _ => Ok [];
     serialize := fun _ => Threw (Raised EmptyString "Unknown type: assett");
     transact := fun _ => Ok "tx1";
     enableInline := fun _ => Ok tt |}.

(** A GitHub source that replaces a deployed schema whose table holds rows,
    with an operator who accepts the deployment and declines at the risk
    confirmation. *)
Definition riskDeclined : World :=
  {| contractFile := None; chain := "proton";
     parse := fun _ => Ok (remoteArgs, noFlags);
     answer := fun name => String.eqb name "confirmedContract";
     makeTemp := Ok "/tmp/foo-Ab12Cd";
     fetch := fun _ _ => Ok tt;
     readFile := fun _ => Ok "wasm-bytes";
     readAbiFile := fun _ => Ok {| structs := []; tables := [] |};
     get_abi := fun _ =>
       Ok (Some {| structs := [someStruct]; tables := [tableOf "accounts" "account"] |});
     get_table_by_scope := fun _ _ => Ok ["{}"];
     serialize := fun _ => Ok "0e";
     transact := fun _ => Ok "tx1";
     enableInline := fun _ => Ok tt |}.

(** A .contract file that names another network than [bareWorld]'s, and one
    that presets the account. *)
Definition otherNetwork : World :=
  {| contractFile := Some {["NETWORK" := "proton-test"]}; chain := chain bareWorld;
     parse := parse bareWorld; answer := answer bareWorld;
     makeTemp := makeTemp bareWorld; fetch := fetch bareWorld;
     readFile := readFile bareWorld; readAbiFile := readAbiFile bareWorld;
     get_abi := get_abi bareWorld;
     get_table_by_scope := get_table_by_scope bareWorld;
     serialize := serialize bareWorld; transact := transact bareWorld;
     enableInline := enableInline bareWorld |}.

Definition presetAccount : World :=
  {| contractFile := Some {["ACCOUNT" := "carol"]}; chain := chain bareWorld;
     parse := fun _ => Ok ({["account" := "alice"; "source" := "/proj/target"]}, noFlags);
     answer := fun _ => false;
     makeTemp := makeTemp bareWorld; fetch := fetch bareWorld;
     readFile := readFile bareWorld; readAbiFile := readAbiFile bareWorld;
     get_abi := get_abi bareWorld;
     get_table_by_scope := get_table_by_scope bareWorld;
     serialize := serialize bareWorld; transact := transact bareWorld;
     enableInline := enableInline bareWorld |}.


Definition clearFlags : Flags :=
  {| clear := true; abiOnly := false; wasmOnly := false; disableInline := true |}.

Definition emptyState : State := {| disk := ∅; trace := [] |}.

Definition localState : State :=
  {| disk := {["/proj/target" := ["token.wasm"; "token.abi"; "README.md"]]}; trace := [] |}.

(** * Properties *)

(** ** Error classifier *)

Lemma startsWith_spec (s p : string) :
  Js.startsWith s p = true ↔ ∃ post, s = p ++ post.
Proof.
  revert s. induction p as [|a p IH]; intros s; simpl.
  - split; [intros _; by exists s | done].
  - destruct s as [|b s]; simpl.
    + split; [done | intros [post H]; discriminate].
    + destruct (Ascii.eqb_spec a b) as [->|Hne].
      * rewrite IH. split; intros [post H]; exists post; [by rewrite H | by injection H].
      * split; [done | intros [post H]; injection H; congruence].
Qed.

Lemma includes_spec (s p : string) :
  Js.includes s p = true ↔ ∃ pre post, s = pre ++ p ++ post.
Proof.
  induction s as [|c s IH]; simpl.
  - rewrite orb_false_r, startsWith_spec. split.
    + intros [post H]. by exists EmptyString, post.
    + intros [pre [post H]]. destruct pre; [by exists post | discriminate].
  - rewrite orb_true_iff, startsWith_spec, IH. split.
    + intros [[post H] | [pre [post H]]].
      * by exists EmptyString, post.
      * exists (String c pre), post. simpl. by rewrite H.
    + intros [pre [post H]]. destruct pre as [|d pre]; simpl in H.
      * left. by exists post.
      * right. exists pre, post. by injection H.
Qed.

Lemma entryTest_spec h m : entryTest h m = true ↔ entryMatches h m.
Proof.
  unfold entryTest, entryMatches, ciSubstring.
  destruct (pattern h); [apply includes_spec | done].
Qed.

Lemma getHintIn_cons h rest m :
  getHintIn (h :: rest) m = if entryTest h m then Some (hint h) else getHintIn rest m.
Proof. unfold entryTest. simpl. by destruct (pattern h). Qed.

(** The loop returns the hint of the first entry that matches. *)
Lemma getHintIn_first (hints : list ErrorHint) (m : string) :
  match getHintIn hints m with
  | Some found =>
      ∃ i e, hints !! i = Some e ∧ found = hint e ∧ entryMatches e m ∧
             ∀ j e', (j < i)%nat → hints !! j = Some e' → ¬ entryMatches e' m
  | None => ∀ e, e ∈ hints → ¬ entryMatches e m
  end.
Proof.
  induction hints as [|h rest IH].
  - simpl. intros e He. by apply elem_of_nil in He.
  - rewrite getHintIn_cons. destruct (entryTest h m) eqn:Ht.
    + exists 0%nat, h. split; [done|]. split; [done|].
      split; [by apply entryTest_spec | intros; lia].
    + assert (¬ entryMatches h m) as Hno.
      { rewrite <- entryTest_spec, Ht. done. }
      destruct (getHintIn rest m) as [found|].
      * destruct IH as (i & e & Hi & Hf & Hm & Hbefore).
        exists (S i), e. split; [done|]. split; [done|]. split; [done|].
        intros [|j] e' Hj He'; simpl in He'.
        -- by injection He' as <-.
        -- apply (Hbefore j); [lia | done].
      * intros e He. apply elem_of_cons in He as [->|He]; [done | by apply IH].
Qed.

(** C9: for every message, [getHintForError] returns the hint of the first
    entry of [ERROR_HINTS] that matches it (a string matcher matching as a
    case-insensitive substring) and returns nothing when no entry matches. It
    is a total function: no message makes it fail. *)
Theorem C9_first_matching_hint (errorMessage : string) :
  (∃ i e, ERROR_HINTS !! i = Some e ∧
          getHintForError errorMessage = Some (hint e) ∧
          entryMatches e errorMessage ∧
          ∀ j e', (j < i)%nat → ERROR_HINTS !! j = Some e' → ¬ entryMatches e' errorMessage)
  ∨ (getHintForError errorMessage = None ∧
     ∀ e, e ∈ ERROR_HINTS → ¬ entryMatches e errorMessage).
Proof.
  unfold getHintForError.
  pose proof (getHintIn_first ERROR_HINTS errorMessage) as H.
  destruct (getHintIn ERROR_HINTS errorMessage) as [found|].
  - left. destruct H as (i & e & Hi & -> & Hm & Hb). by exists i, e.
  - by right.
Qed.

(** The same holds of the loop over any matcher list, string matchers
    included. *)
Lemma getHintIn_string_matcher (p hintText m : string) (rest : list ErrorHint) :
  ciSubstring p m →
  getHintIn ({| pattern := PString p; hint := hintText |} :: rest) m = Some hintText.
Proof.
  intros H. simpl. by apply includes_spec in H as ->.
Qed.

Example classify_cpu :
  getHintForError "assertion failure: Billed cpu TIME exceeded; insufficient RAM"
  = Some "Try buying more RAM: proton ram:buy <account> <account> <bytes>".
Proof. reflexivity. Qed.

Example classify_none : getHintForError "expired transaction" = None.
Proof. reflexivity. Qed.

(** ** Schema differ *)

Lemma findIndexFrom_spec {A} (p : A → bool) (l : list A) (i : Z) :
  (0 ≤ i)%Z →
  if existsb p l then (i ≤ findIndexFrom p l i)%Z else findIndexFrom p l i = (-1)%Z.
Proof.
  revert i. induction l as [|x l IH]; intros i Hi; simpl; [done|].
  destruct (p x); simpl; [lia|].
  specialize (IH (i + 1)%Z). destruct (existsb p l); lia.
Qed.

Lemma findIndex_negative {A} (p : A → bool) (l : list A) :
  (findIndex p l <? 0)%Z = negb (existsb p l).
Proof.
  unfold findIndex. pose proof (findIndexFrom_spec p l 0%Z) as H.
  destruct (existsb p l); simpl.
  - apply Z.ltb_ge. lia.
  - rewrite H; [done | lia].
Qed.

Lemma compareStep_spec e n acc t :
  compareStep e n acc t =
  {| removed := (removed acc ++
                 if hasTable n (table_name t) then [] else [table_name t])%list;
     updated := (updated acc ++
                 if isUpdated e n t then [table_name t] else [])%list |}.
Proof.
  unfold compareStep, isUpdated, hasTable. rewrite findIndex_negative.
  destruct (existsb _ (tables n)); simpl.
  - destruct (isEqual _ _); simpl; rewrite !app_nil_r; by destruct acc.
  - by rewrite app_nil_r.
Qed.

Lemma fold_compareStep e n l acc :
  fold_left (compareStep e n) l acc =
  {| removed := (removed acc ++
       List.map table_name (List.filter (fun t => negb (hasTable n (table_name t))) l))%list;
     updated := (updated acc ++
       List.map table_name (List.filter (isUpdated e n) l))%list |}.
Proof.
  revert acc. induction l as [|t l IH]; intros acc; simpl.
  - rewrite !app_nil_r. by destruct acc.
  - rewrite IH, compareStep_spec. simpl.
    destruct (hasTable n (table_name t)), (isUpdated e n t); simpl;
      by rewrite <- ?app_assoc.
Qed.

Lemma compareTables_spec e n :
  compareTables e n =
  {| removed := List.map table_name
       (List.filter (fun t => negb (hasTable n (table_name t))) (tables e));
     updated := List.map table_name (List.filter (isUpdated e n) (tables e)) |}.
Proof. unfold compareTables. by rewrite fold_compareStep. Qed.

Lemma hasTable_self (S : Abi) (t : AbiTable) :
  t ∈ tables S → hasTable S (table_name t) = true.
Proof.
  intros Ht. unfold hasTable. apply existsb_exists. exists t.
  split; [by apply list_elem_of_In | apply String.eqb_refl].
Qed.

Lemma hasTable_names (abi : Abi) (name : string) :
  hasTable abi name =
  existsb (fun s => String.eqb s name) (List.map table_name (tables abi)).
Proof.
  unfold hasTable. induction (tables abi) as [|t l IH]; simpl; [done | by rewrite IH].
Qed.

Lemma filter_none {A} (p : A → bool) (l : list A) :
  (∀ x, x ∈ l → p x = false) → List.filter p l = [].
Proof.
  induction l as [|x l IH]; intros H; simpl; [done|].
  rewrite (H x) by apply list_elem_of_here.
  apply IH. intros y Hy. apply H. by apply list_elem_of_further.
Qed.

(** C6: a schema compared with itself has no removed and no updated table. *)
Theorem C6_diff_self_is_empty (S : Abi) :
  compareTables S S = {| removed := []; updated := [] |}.
Proof.
  rewrite compareTables_spec. rewrite !filter_none; [done | |].
  - intros t Ht. unfold isUpdated, isEqual.
    rewrite bool_decide_eq_true_2 by done. apply andb_false_r.
  - intros t Ht. by rewrite hasTable_self.
Qed.

(** C3, amended: for a table entry of the existing schema whose name the
    candidate schema also has, the two lookups are made by the existing
    entry's record-type name; when exactly one of them misses, the table is
    classified as updated, and when both miss the entry changes nothing
    (two absent records are equal). *)
Theorem C3_one_missing_record_is_updated (existingABI newAbi : Abi) (table : AbiTable) :
  table ∈ tables existingABI →
  hasTable newAbi (table_name table) = true →
  let existingStruct := extractStruct (structs existingABI) (table_type table) in
  let newStruct := extractStruct (structs newAbi) (table_type table) in
  ((existingStruct = None ∧ newStruct ≠ None) ∨ (existingStruct ≠ None ∧ newStruct = None) →
   table_name table ∈ updated (compareTables existingABI newAbi)) ∧
  (existingStruct = None → newStruct = None →
   ∀ accum, compareStep existingABI newAbi accum table = accum).
Proof.
  intros Ht Hhas existingStruct newStruct. split.
  - intros Hone. rewrite compareTables_spec. simpl.
    apply list_elem_of_In, in_map, filter_In. split; [by apply list_elem_of_In|].
    unfold isUpdated. rewrite Hhas. simpl. unfold isEqual.
    fold existingStruct newStruct.
    rewrite bool_decide_eq_false_2; [done|]. intros Heq.
    destruct Hone as [[H1 H2]|[H1 H2]]; congruence.
  - intros H1 H2 accum. rewrite compareStep_spec. unfold isUpdated, isEqual.
    fold existingStruct newStruct. rewrite Hhas, H1, H2. simpl.
    rewrite !app_nil_r. by destruct accum.
Qed.

Lemma C3_one_missing_record_is_updated_witness :
  let existingABI := {| structs := [someStruct]; tables := [tableOf "accounts" "account"] |} in
  let newAbi := {| structs := []; tables := [tableOf "accounts" "account"] |} in
  "accounts" ∈ updated (compareTables existingABI newAbi).
Proof.
  intros existingABI newAbi.
  refine (proj1 (C3_one_missing_record_is_updated existingABI newAbi
                   (tableOf "accounts" "account") _ _) _).
  - apply list_elem_of_here.
  - reflexivity.
  - right. split; [discriminate | reflexivity].
Defined.

(** C3 as stated fails: the record-type name is in neither record list, both
    lookups miss, and the table is not classified as updated. *)
Lemma C3_both_missing_counterexample :
  let S := {| structs := []; tables := [tableOf "accounts" "account"] |} in
  hasTable S "accounts" = true ∧
  extractStruct (structs S) "account" = None ∧
  ¬ "accounts" ∈ updated (compareTables S S).
Proof.
  split; [reflexivity|]. split; [reflexivity|].
  intros H. vm_compute in H. by apply elem_of_nil in H.
Qed.

(** C10: the candidate table's own record-type name plays no part.  The
    updated tables are those existing entries whose name the candidate has
    and whose record, looked up in both record lists by the existing entry's
    record-type name, differs; hence two candidates with the same record list
    and the same table names give the same result, whatever record-type names
    their tables carry. *)
Theorem C10_candidate_table_type_ignored :
  (∀ existingABI newAbi,
     updated (compareTables existingABI newAbi) =
     List.map table_name
       (List.filter
          (fun t => hasTable newAbi (table_name t) &&
                    negb (isEqual (extractStruct (structs existingABI) (table_type t))
                                  (extractStruct (structs newAbi) (table_type t))))
          (tables existingABI))) ∧
  (∀ existingABI newAbi newAbi',
     structs newAbi = structs newAbi' →
     List.map table_name (tables newAbi) = List.map table_name (tables newAbi') →
     compareTables existingABI newAbi = compareTables existingABI newAbi').
Proof.
  split.
  - intros e n. by rewrite compareTables_spec.
  - intros e n n' Hs Ht.
    assert (∀ name, hasTable n name = hasTable n' name) as Hhas.
    { intros name. by rewrite !hasTable_names, Ht. }
    rewrite !compareTables_spec. f_equal; f_equal.
    + apply filter_ext. intros t. by rewrite Hhas.
    + apply filter_ext. intros t. unfold isUpdated. by rewrite Hhas, Hs.
Qed.

Lemma C10_candidate_table_type_ignored_witness :
  let existingABI := {| structs := [someStruct]; tables := [tableOf "accounts" "account"] |} in
  let newAbi := {| structs := [someStruct]; tables := [tableOf "accounts" "account"] |} in
  let newAbi' := {| structs := [someStruct]; tables := [tableOf "accounts" "ledger"] |} in
  compareTables existingABI newAbi = compareTables existingABI newAbi' ∧
  updated (compareTables existingABI newAbi') = [].
Proof.
  intros existingABI newAbi newAbi'. split.
  - apply (proj2 C10_candidate_table_type_ignored existingABI newAbi newAbi');
      reflexivity.
  - reflexivity.
Defined.

(** ** Risk assessor *)

Lemma probe_spec w account tableName st :
  probe w account tableName st =
  (Ok (if holdsData w account tableName then Some tableName else None), st).
Proof.
  unfold probe, holdsData, tryCatch, lift, mbind, M_bind, mret, M_ret.
  by destruct (get_table_by_scope w account tableName).
Qed.

Lemma forEach_probe w account tables st :
  forEach (probe w account) tables st =
  (Ok (List.map (fun t => if holdsData w account t then Some t else None) tables), st).
Proof.
  induction tables as [|t l IH]; simpl; [done|].
  unfold mbind, M_bind. rewrite probe_spec.
  fold (@mbind M _). unfold mbind, M_bind. by rewrite IH.
Qed.

(** The assessor returns the names that hold data, in the order asked. *)
Lemma checkDataExists_spec w account tables st :
  checkDataExists w account tables st =
  (Ok (List.map Some (List.filter (holdsData w account) tables)), st).
Proof.
  unfold checkDataExists, mbind, M_bind. rewrite forEach_probe.
  unfold mret, M_ret. do 2 f_equal.
  induction tables as [|t l IH]; simpl; [done|].
  destruct (holdsData w account t); simpl; by rewrite IH.
Qed.

Lemma holdsData_spec w account name :
  holdsData w account name = true ↔
  ∃ rows, get_table_by_scope w account name = Ok rows ∧ rows ≠ [].
Proof.
  unfold holdsData. destruct (get_table_by_scope w account name) as [rows|e].
  - destruct rows as [|r rows]; simpl.
    + split; [done | intros (rows & [= <-] & H); done].
    + split; [intros _; by eexists | done].
  - split; [done | intros (rows & H & _); done].
Qed.

(** C4: for every list of table names the assessor returns a list (it never
    throws, whatever the per-table queries do), and a name is in the result
    exactly when it was asked for and its query succeeds with at least one
    row. *)
Theorem C4_probe_failures_absorbed (w : World) (account : string)
    (tables : list string) (st : State) :
  ∃ found,
    checkDataExists w account tables st = (Ok found, st) ∧
    ∀ name, Some name ∈ found ↔
            name ∈ tables ∧
            ∃ rows, get_table_by_scope w account name = Ok rows ∧ rows ≠ [].
Proof.
  eexists. split; [apply checkDataExists_spec|].
  intros name. rewrite <- holdsData_spec.
  rewrite list_elem_of_In, in_map_iff. split.
  - intros (x & [= ->] & Hx). apply filter_In in Hx as [Hin Hd].
    by rewrite list_elem_of_In.
  - intros [Hin Hd]. exists name. split; [done|].
    apply filter_In. by rewrite <- list_elem_of_In.
Qed.

Lemma NoDup_list_filter {A} (p : A → bool) (l : list A) :
  NoDup l → NoDup (List.filter p l).
Proof.
  induction 1 as [|x l Hx Hl IH]; simpl; [constructor|].
  destruct (p x); [|done]. constructor; [|done].
  rewrite list_elem_of_In, filter_In, <- list_elem_of_In. tauto.
Qed.

(** C5, amended: the list the assessor returns has no null placeholder, and
    it has no duplicate name whenever the list of names it was given has
    none. *)
Theorem C5_no_null_and_no_new_duplicates (w : World) (account : string)
    (tables : list string) (st : State) :
  ∃ found,
    checkDataExists w account tables st = (Ok found, st) ∧
    (None ∉ found) ∧
    (NoDup tables → NoDup found).
Proof.
  eexists. split; [apply checkDataExists_spec|]. split.
  - rewrite list_elem_of_In, in_map_iff. by intros (x & [=] & _).
  - intros Hnd. apply (NoDup_fmap_2 Some). by apply NoDup_list_filter.
Qed.

Lemma C5_no_null_and_no_new_duplicates_witness :
  ∃ found,
    checkDataExists fullWorld "alice" ["stat"; "accounts"] emptyState = (Ok found, emptyState) ∧
    (None ∉ found) ∧ NoDup found.
Proof.
  destruct (C5_no_null_and_no_new_duplicates fullWorld "alice" ["stat"; "accounts"] emptyState)
    as (found & Hrun & Hnull & Hnd).
  exists found. split; [done|]. split; [done|].
  apply Hnd. apply (bool_decide_unpack _). vm_compute. exact I.
Defined.

(** C5 as stated fails: a name given twice and holding rows is returned
    twice. *)
Lemma C5_duplicates_counterexample :
  ∃ found,
    checkDataExists fullWorld "alice" ["stat"; "stat"] emptyState = (Ok found, emptyState) ∧
    ¬ NoDup found.
Proof.
  exists [Some "stat"; Some "stat"]. split; [reflexivity|].
  intros H. apply NoDup_cons_1_1 in H. apply H, list_elem_of_here.
Qed.

(** ** Effects: what a computation adds to the trace *)

Section Emits.

Context (P : Event → bool).

Lemma emits_ret {A} (a : A) : emits P (mret a).
Proof. intros st. exists []. by rewrite app_nil_r. Qed.

Lemma emits_throw {A} (e : Exn) : emits P (@throw A e).
Proof. intros st. exists []. by rewrite app_nil_r. Qed.

Lemma emits_lift {A} (r : res A) : emits P (lift r).
Proof. intros st. exists []. by rewrite app_nil_r. Qed.

Lemma emits_emit (ev : Event) : P ev = true → emits P (emit ev).
Proof. intros H st. exists [ev]. simpl. by rewrite H. Qed.

Lemma emits_bind {A B} (m : M A) (f : A → M B) :
  emits P m → (∀ a, emits P (f a)) → emits P (m ≫= f).
Proof.
  intros Hm Hf st. unfold mbind, M_bind.
  destruct (Hm st) as (evs & Ht & Hp). destruct (m st) as [[a|e] st1]; simpl in *.
  - destruct (Hf a st1) as (evs' & Ht' & Hp'). exists (evs ++ evs')%list.
    rewrite Ht', Ht, app_assoc, forallb_app, Hp, Hp'. done.
  - by exists evs.
Qed.

Lemma emits_tryCatch {A} (m : M A) (h : Exn → M A) :
  emits P m → (∀ e, emits P (h e)) → emits P (tryCatch m h).
Proof.
  intros Hm Hh st. unfold tryCatch.
  destruct (Hm st) as (evs & Ht & Hp). destruct (m st) as [[a|e] st1]; simpl in *.
  - by exists evs.
  - destruct (Hh e st1) as (evs' & Ht' & Hp'). exists (evs ++ evs')%list.
    rewrite Ht', Ht, app_assoc, forallb_app, Hp, Hp'. done.
Qed.

Lemma emits_forEach {A B} (f : A → M B) (l : list A) :
  (∀ a, emits P (f a)) → emits P (forEach f l).
Proof.
  intros Hf. induction l as [|x l IH]; simpl; [apply emits_ret|].
  apply emits_bind; [done|]. intros y.
  apply emits_bind; [done|]. intros ys. apply emits_ret.
Qed.

Lemma emits_mkdtemp w : emits P (mkdtemp w).
Proof.
  intros st. exists []. unfold mkdtemp. rewrite app_nil_r. by destruct (makeTemp w).
Qed.

Lemma emits_download w url folder file : emits P (download w url folder file).
Proof.
  intros st. exists []. unfold download. rewrite app_nil_r. by destruct (fetch w _ _).
Qed.

Lemma emits_readdirSync dir : emits P (readdirSync dir).
Proof.
  intros st. exists []. unfold readdirSync. rewrite app_nil_r. by destruct (disk st !! dir).
Qed.

Lemma emits_rmSync folder : emits P (rmSync folder).
Proof.
  intros st. exists []. unfold rmSync. rewrite app_nil_r. by destruct (disk st !! folder).
Qed.

End Emits.

(** One step of a proof that a computation only emits events in [P]. *)
Ltac emits_step :=
  lazymatch goal with
  | |- emits _ (mret _) => apply emits_ret
  | |- emits _ (throw _) => apply emits_throw
  | |- emits _ (lift _) => apply emits_lift
  | |- emits _ (mkdtemp _) => apply emits_mkdtemp
  | |- emits _ (download _ _ _ _) => apply emits_download
  | |- emits _ (readdirSync _) => apply emits_readdirSync
  | |- emits _ (rmSync _) => apply emits_rmSync
  | |- emits _ (emit _) => apply emits_emit; reflexivity
  | |- emits _ (_ ≫= _) => apply emits_bind; [|intros ?]
  | |- emits _ (tryCatch _ _) => apply emits_tryCatch; [|intros ?]
  | |- emits _ (forEach _ _) => apply emits_forEach; intros ?
  | |- emits _ (if ?b then _ else _) => destruct b
  | |- emits _ (match ?x with _ => _ end) => destruct x
  | |- emits _ (let '(_, _) := ?x in _) => destruct x
  end.

Ltac emits_auto := repeat emits_step.

Lemma prepare_emits w args : emits preparatory (prepare w args).
Proof.
  unfold prepare, getDeployableFilesFromDir, stageFromGitHub, downloadExt,
    riskWarning, checkDataExists, probe, prompt, log.
  emits_auto.
Qed.

Lemma prompt_emits w name : emits preparatory (prompt w name).
Proof. unfold prompt. emits_auto. Qed.

(** ** Artifact resolver *)

Lemma downloadExt_returns w tmp dirArr name ext st :
  ∃ b st', downloadExt w tmp dirArr name ext st = (Ok b, st').
Proof.
  unfold downloadExt, tryCatch, download, log, emit, mbind, M_bind, mret, M_ret.
  destruct (fetch w _ _); eauto.
Qed.

(** Staging succeeds exactly when the temporary directory can be made:
    failed downloads are reported and do not stop it. *)
Lemma stage_result w dir st : (stageFromGitHub w dir st).1 = makeTemp w.
Proof.
  unfold stageFromGitHub, mbind, M_bind, log, emit, mkdtemp. simpl.
  destruct (makeTemp w) as [folder|e]; [|done]. simpl.
  unfold mbind, M_bind.
  match goal with |- context [downloadExt w ?a ?b ?c "wasm" ?s] =>
    destruct (downloadExt_returns w a b c "wasm" s) as (b1 & s1 & ->) end.
  match goal with |- context [downloadExt w ?a ?b ?c "abi" ?s] =>
    destruct (downloadExt_returns w a b c "abi" s) as (b2 & s2 & ->) end.
  unfold mret, M_ret. simpl. by destruct (b1 && (b2 && true)).
Qed.

(** C7, amended: let [listing] be the listing of the directory that is
    scanned (the source directory, or the staging directory of a GitHub
    source).  With exactly one bytecode file and exactly one schema file, the
    two joined paths are returned; with no file of one of the two kinds,
    resolution fails with the not-found error, also when the other kind has
    several files; with at least one file of each kind and several of one,
    it fails with the ambiguity error. *)
Theorem C7_resolution_by_listing (w : World) (dir : string) (st : State)
    (rdir : string) (listing : list string) :
  resolvedDir w dir = Some rdir →
  disk (getDeployableFilesFromDir w dir st).2 !! rdir = Some listing →
  let r := (getDeployableFilesFromDir w dir st).1 in
  let wasms := wasmsOf listing in
  let abis := abisOf listing in
  (∀ wasmFile abiFile, wasms = [wasmFile] → abis = [abiFile] →
     r = Ok {| wasmPath := join rdir wasmFile; abiPath := join rdir abiFile;
               tmpFolder := if Js.test githubRe dir then rdir else EmptyString |}) ∧
  (wasms = [] → r = Threw (CannotFind "wasm" rdir)) ∧
  (wasms ≠ [] → abis = [] → r = Threw (CannotFind "abi" rdir)) ∧
  (wasms ≠ [] → abis ≠ [] → (1 < length wasms ∨ 1 < length abis)%nat →
     r = Threw (OnlyOneAllowed rdir)).
Proof.
  intros Hdir.
  pose (scan := fun tmp : string =>
    (readdirSync rdir ≫= fun dirCont =>
       let wasms := wasmsOf dirCont in
       let abis := abisOf dirCont in
       if (length wasms =? 0)%nat then throw (CannotFind "wasm" rdir)
       else if (length abis =? 0)%nat then throw (CannotFind "abi" rdir)
       else if (1 <? length wasms)%nat || (1 <? length abis)%nat
            then throw (OnlyOneAllowed rdir)
            else mret {| wasmPath := join rdir (List.nth 0 wasms EmptyString);
                         abiPath := join rdir (List.nth 0 abis EmptyString);
                         tmpFolder := tmp |}) : M Deployable).
  assert (∃ st1, getDeployableFilesFromDir w dir st =
                 scan (if Js.test githubRe dir then rdir else EmptyString) st1)
    as [st1 ->].
  { unfold getDeployableFilesFromDir, resolvedDir in *.
    destruct (Js.test githubRe dir).
    - pose proof (stage_result w dir st) as Hst.
      unfold mbind at 1. unfold M_bind at 1. unfold mbind at 1. unfold M_bind at 1.
      destruct (stageFromGitHub w dir st) as [r1 st1]. simpl in Hst. subst r1.
      destruct (makeTemp w) as [folder|e]; [|done]. injection Hdir as ->.
      by exists st1.
    - injection Hdir as ->. by exists st. }
  generalize (if Js.test githubRe dir then rdir else EmptyString). intros tmp.
  unfold scan, mbind, M_bind, readdirSync.
  destruct (disk st1 !! rdir) as [l|] eqn:Hl; simpl; [|congruence].
  destruct (wasmsOf l) as [|w1 [|w2 ws]] eqn:Hw;
    destruct (abisOf l) as [|a1 [|a2 az]] eqn:Ha; simpl;
    unfold throw, mret, M_ret; simpl; rewrite Hl; intros [= <-];
    rewrite Hw, Ha; simpl;
    (split; [intros ?? [=] [=]; by subst|]);
    (split; [intros [=]; done|]);
    (split; [intros ? [=]; done|]);
    intros ? ? [?|?]; try done; simpl in *; lia.
Qed.

Lemma C7_resolution_by_listing_witness :
  (getDeployableFilesFromDir bareWorld "/proj/target" localState).1 =
  Ok {| wasmPath := "/proj/target/token.wasm"; abiPath := "/proj/target/token.abi";
        tmpFolder := EmptyString |}.
Proof.
  refine (proj1 (C7_resolution_by_listing bareWorld "/proj/target" localState
                   "/proj/target" ["token.wasm"; "token.abi"; "README.md"] _ _)
            "token.wasm" "token.abi" _ _); reflexivity.
Defined.

(** C7 as stated fails: a directory with two schema files and no bytecode
    file has more than one file of one kind, and resolution fails with the
    not-found error, not with the ambiguity error. *)
Lemma C7_precedence_counterexample :
  let listing := ["token.abi"; "old.abi"] in
  let st := {| disk := {["/proj/target" := listing]}; trace := [] |} in
  (1 < length (abisOf listing))%nat ∧
  (getDeployableFilesFromDir bareWorld "/proj/target" st).1
    = Threw (CannotFind "wasm" "/proj/target") ∧
  (getDeployableFilesFromDir bareWorld "/proj/target" st).1
    ≠ Threw (OnlyOneAllowed "/proj/target").
Proof.
  split; [vm_compute; lia|]. split; [reflexivity|].
  vm_compute. discriminate.
Qed.

(** ** Submissions *)

Lemma parseDetailsError_spec (e : Exn) (st : State) :
  parseDetailsError e st = (Ok tt, after st (reportOf e)).
Proof.
  unfold parseDetailsError, reportOf, after, log, emit, mbind, M_bind, mret, M_ret.
  simpl. destruct (getHintForError _) as [h|]; simpl.
  - destruct (Js.truthy h); simpl; by rewrite <- ?app_assoc.
  - done.
Qed.

Lemma after_after st evs evs' : after (after st evs) evs' = after st (evs ++ evs')%list.
Proof. unfold after. simpl. by rewrite app_assoc. Qed.

Lemma after_nil st : after st [] = st.
Proof. unfold after. rewrite app_nil_r. by destruct st. Qed.

(** One guarded submission of [deploy]: it never throws, and leaves the
    attempt followed by the report of its outcome. *)
Lemma submission_spec w (action : Action) (success : LogMsg) (st : State) :
  tryCatch
    (r ← submit w [action]; _ ← log success; log (ViewTX r))
    parseDetailsError st
  = (Ok tt, after st (Transact [action] :: outcomeEvents success (transact w [action]))).
Proof.
  unfold tryCatch, submit, lift, log, emit, mbind, M_bind, outcomeEvents. simpl.
  destruct (transact w [action]) as [id|e]; simpl.
  - unfold after. simpl. by rewrite <- !app_assoc.
  - rewrite parseDetailsError_spec. unfold after. simpl. by rewrite <- !app_assoc.
Qed.

Lemma enable_spec w args flags st :
  (if negb (disableInline flags)
   then _ ← emit (EnableInline (prop args "account"));
        lift (enableInline w (prop args "account"))
   else mret tt) st
  = (enableOutcome w args flags, after st (enableEvents args flags)).
Proof.
  unfold enableOutcome, enableEvents.
  destruct (disableInline flags); simpl; [by rewrite after_nil | done].
Qed.

Lemma deploy_spec w args flags p st :
  deploy w args flags p st =
  (enableOutcome w args flags,
   after st (codeEvents w args flags p ++ schemaEvents w args flags p
             ++ enableEvents args flags)%list).
Proof.
  unfold deploy. unfold mbind at 1. unfold M_bind at 1.
  assert ((if negb (abiOnly flags)
           then tryCatch
                  (r ← submit w [setcodeAction (prop args "account") (wasm p)];
                   _ ← log (WasmSuccess (if clear flags then "Cleared" else "Deployed"));
                   log (ViewTX r)) parseDetailsError
           else mret tt) st = (Ok tt, after st (codeEvents w args flags p))) as ->.
  { unfold codeEvents, deployText. destruct (abiOnly flags); simpl.
    - by rewrite after_nil.
    - apply submission_spec. }
  unfold mbind at 1. unfold M_bind at 1.
  assert (∀ st1, (if negb (wasmOnly flags)
           then tryCatch
                  (r ← submit w [setabiAction (prop args "account") (abi p)];
                   _ ← log (AbiSuccess (if clear flags then "Cleared" else "Deployed"));
                   log (ViewTX r)) parseDetailsError
           else mret tt) st1 = (Ok tt, after st1 (schemaEvents w args flags p))) as ->.
  { intros st1. unfold schemaEvents, deployText. destruct (wasmOnly flags); simpl.
    - by rewrite after_nil.
    - apply submission_spec. }
  by rewrite enable_spec, !after_after.
Qed.

(** ** The run up to and around the submissions *)

Ltac goal_match :=
  repeat match goal with
         | |- context [match ?x with Some _ => _ | None => _ end] => destruct x
         end.

Ltac shape_done :=
  simpl; rewrite ?app_nil_r, <- ?app_assoc;
  repeat match goal with |- _ ∧ _ => split end; (done || reflexivity).

(** Two runs of the confirmed block that differ only in the code-only and
    schema-only modes: they prepare alike, reach the submissions alike, and
    end with the same outcome and the same disk. *)
Lemma deployConfirmed_two w args flags flags' st :
  clear flags = clear flags' →
  disableInline flags = disableInline flags' →
  ∃ pre r d reached,
    forallb preparatory pre = true ∧
    deployConfirmed w args flags st =
      (r, {| disk := d; trace := (trace st ++ pre ++ deployEvents w args flags reached)%list |}) ∧
    deployConfirmed w args flags' st =
      (r, {| disk := d; trace := (trace st ++ pre ++ deployEvents w args flags' reached)%list |}).
Proof.
  intros Hc Hd. unfold deployConfirmed. rewrite <- Hc.
  assert (∃ evs, forallb preparatory evs = true ∧
     ∃ rp d1, (if negb (clear flags) then prepare w args else mret notPrepared) st
              = (rp, {| disk := d1; trace := (trace st ++ evs)%list |}))
    as (evs & Hevs & rp & d1 & Hprep).
  { destruct (clear flags); simpl.
    - exists []. split; [done|]. exists (Ok notPrepared), (disk st).
      rewrite app_nil_r. by destruct st.
    - destruct (prepare_emits w args st) as (evs & Ht & Hp).
      exists evs. split; [done|].
      destruct (prepare w args st) as [rp [d1 t1]]. simpl in Ht. subst t1.
      by exists rp, d1. }
  unfold mbind at 1 3. unfold M_bind at 1 3. rewrite Hprep.
  destruct rp as [p|e].
  2:{ exists evs, (Threw e), d1, None. shape_done. }
  unfold mbind, M_bind.
  destruct (canDeploy p).
  2:{ destruct (Js.truthy (folderToCleanup p));
        unfold mret, M_ret, rmSync; cbn [disk trace].
      - goal_match.
        + eexists evs, _, _, None. shape_done.
        + eexists evs, _, _, None. shape_done.
      - eexists evs, _, _, None. shape_done. }
  rewrite !deploy_spec. unfold enableOutcome. rewrite <- Hd.
  destruct (if disableInline flags then Ok () else enableInline w (prop args "account"))
    as [[]|e].
  2:{ exists evs, (Threw e), d1, (Some p). unfold after. shape_done. }
  destruct (Js.truthy (folderToCleanup p));
    unfold mret, M_ret, rmSync, after; cbn [disk trace].
  - goal_match.
    + eexists evs, _, _, (Some p). shape_done.
    + eexists evs, _, _, (Some p). shape_done.
  - eexists evs, _, _, (Some p). shape_done.
Qed.

Lemma bind_eq {A B} (m : M A) (f : A → M B) (st : State) :
  (m ≫= f) st =
  match m st with
  | (Ok a, st') => f a st'
  | (Threw e, st') => (Threw e, st')
  end.
Proof. reflexivity. Qed.

Lemma readContractEnvFile_spec w st :
  ∃ evs, forallb preparatory evs = true ∧
         readContractEnvFile w st = (Ok (default ∅ (contractFile w)), after st evs).
Proof.
  unfold readContractEnvFile. destruct (contractFile w) as [c|]; simpl.
  - destruct (0 <? size c)%nat.
    + by exists [Log FoundContractFile].
    + exists []. by rewrite after_nil.
  - exists []. by rewrite after_nil.
Qed.

(** The same for whole runs: [w] and the world whose parser returns the same
    arguments with other code-only and schema-only modes. *)
Lemma run_two w st argsInput flags flags' :
  parse w (expectedArgs w) = Ok (argsInput, flags) →
  clear flags = clear flags' →
  disableInline flags = disableInline flags' →
  ∃ pre r d reached args,
    forallb preparatory pre = true ∧
    run w st =
      (r, {| disk := d; trace := (trace st ++ pre ++ deployEvents w args flags reached)%list |}) ∧
    run (withParse w (fun _ => Ok (argsInput, flags'))) st =
      (r, {| disk := d; trace := (trace st ++ pre ++ deployEvents w args flags' reached)%list |}).
Proof.
  intros Hparse Hc Hd. unfold run, expectedArgs in *.
  rewrite !bind_eq.
  change (readContractEnvFile (withParse w _)) with (readContractEnvFile w).
  destruct (readContractEnvFile_spec w st) as (evs0 & Hevs0 & ->).
  simpl contractFile. simpl chain.
  destruct (presets (default ∅ (contractFile w))) as [[presetValues confirmed] optionArgs].
  simpl in Hparse.
  destruct (Js.truthy _).
  { exists evs0, (Threw (WrongNetwork (chain w)
       (if Js.truthy (prop (default ∅ (contractFile w)) "NETWORK") &&
           negb (String.eqb (chain w) (prop (default ∅ (contractFile w)) "NETWORK"))
        then prop (default ∅ (contractFile w)) "NETWORK" else EmptyString))),
      (disk st), None, ∅.
    split; [done|]. unfold throw, after. shape_done. }
  rewrite !bind_eq. unfold lift at 1 2. simpl parse.
  rewrite Hparse. rewrite !bind_eq.
  change (prompt (withParse w _)) with (prompt w).
  assert (∃ evs1 c, forallb preparatory evs1 = true ∧
     (if negb confirmed then prompt w "confirmedContract" else mret confirmed) (after st evs0)
     = (Ok c, after st (evs0 ++ evs1)%list)) as (evs1 & c & Hevs1 & ->).
  { destruct confirmed; simpl.
    - exists [], true. by rewrite app_nil_r.
    - exists [Prompt "confirmedContract" (answer w "confirmedContract")], (answer w "confirmedContract").
      split; [done|]. unfold prompt, emit, mbind, M_bind, after. simpl.
      by rewrite <- app_assoc. }
  destruct c.
  - change (deployConfirmed (withParse w _)) with (deployConfirmed w).
    destruct (deployConfirmed_two w (presetValues ∪ argsInput) flags flags'
                (after st (evs0 ++ evs1)%list) Hc Hd)
      as (pre & r & d & reached & Hpre & -> & ->).
    exists (evs0 ++ evs1 ++ pre)%list, r, d, reached, (presetValues ∪ argsInput).
    split; [by rewrite !forallb_app, Hevs0, Hevs1, Hpre|].
    shape_done.
  - exists (evs0 ++ evs1)%list, (Ok tt), (disk st), None, ∅.
    split; [by rewrite forallb_app, Hevs0, Hevs1|].
    unfold mret, M_ret, after. shape_done.
Qed.

(** ** Order of the submissions *)

Lemma attempts_app l1 l2 : attempts (l1 ++ l2)%list = (attempts l1 ++ attempts l2)%list.
Proof. unfold attempts. apply flat_map_app. Qed.

Lemma preparatory_quiet (evs : list Event) :
  forallb preparatory evs = true →
  attempts evs = [] ∧
  List.filter (fun ev => negb (ofSubmission ev)) evs = evs ∧
  ∀ name, forallb (fun ev => negb (isAttempt name ev)) evs = true.
Proof.
  induction evs as [|ev evs IH]; simpl; [done|].
  intros [Hev Hevs]%andb_true_iff. destruct (IH Hevs) as (Ha & Hf & Hn).
  destruct ev as [m| | |]; try done; simpl.
  - destruct m; try done; simpl; by rewrite Hf.
  - by rewrite Hf.
Qed.

Lemma reportOf_submission (e : Exn) :
  forallb ofSubmission (reportOf e) = true ∧ attempts (reportOf e) = [] ∧
  ∀ name, forallb (fun ev => negb (isAttempt name ev)) (reportOf e) = true.
Proof.
  unfold reportOf. simpl. destruct (getHintForError _) as [h|]; simpl.
  - by destruct (Js.truthy h), (Js.truthy (Js.orElse _ _)).
  - by destruct (Js.truthy (Js.orElse _ _)).
Qed.

Lemma outcome_submission (success : LogMsg) (r : res string) :
  ofSubmission (Log success) = true →
  forallb ofSubmission (outcomeEvents success r) = true ∧
  attempts (outcomeEvents success r) = [] ∧
  ∀ name, forallb (fun ev => negb (isAttempt name ev)) (outcomeEvents success r) = true.
Proof.
  intros Hs. destruct r as [id|e]; [|apply reportOf_submission].
  by destruct success.
Qed.

Lemma codeEvents_facts w args flags p :
  forallb ofSubmission (codeEvents w args flags p) = true ∧
  attempts (codeEvents w args flags p) = (if abiOnly flags then [] else ["setcode"]).
Proof.
  unfold codeEvents. destruct (abiOnly flags); [done|]. simpl.
  destruct (outcome_submission (WasmSuccess (deployText flags))
              (transact w [setcodeAction (prop args "account") (wasm p)]) eq_refl)
    as (-> & -> & _). done.
Qed.

Lemma schemaEvents_facts w args flags p :
  forallb ofSubmission (schemaEvents w args flags p) = true ∧
  attempts (schemaEvents w args flags p) = (if wasmOnly flags then [] else ["setabi"]) ∧
  forallb (fun ev => negb (isAttempt "setcode" ev)) (schemaEvents w args flags p) = true.
Proof.
  unfold schemaEvents. destruct (wasmOnly flags); [done|]. simpl.
  destruct (outcome_submission (AbiSuccess (deployText flags))
              (transact w [setabiAction (prop args "account") (abi p)]) eq_refl)
    as (-> & -> & ->). done.
Qed.

Lemma enableEvents_facts args flags :
  List.filter (fun ev => negb (ofSubmission ev)) (enableEvents args flags)
    = enableEvents args flags ∧
  attempts (enableEvents args flags) = [] ∧
  ∀ name, forallb (fun ev => negb (isAttempt name ev)) (enableEvents args flags) = true.
Proof. unfold enableEvents. by destruct (disableInline flags). Qed.

Lemma filter_all_out {A} (q : A → bool) (l : list A) :
  forallb q l = true → List.filter (fun x => negb (q x)) l = [].
Proof.
  induction l as [|x l IH]; simpl; [done|].
  intros [-> Hl]%andb_true_iff. simpl. by apply IH.
Qed.

Lemma deployEvents_attempts w args flags reached :
  attempts (deployEvents w args flags reached) = [] ∨
  attempts (deployEvents w args flags reached) =
    ((if abiOnly flags then [] else ["setcode"]) ++
     (if wasmOnly flags then [] else ["setabi"]))%list.
Proof.
  destruct reached as [p|]; [right | by left]. simpl.
  rewrite !attempts_app.
  destruct (codeEvents_facts w args flags p) as (_ & ->).
  destruct (schemaEvents_facts w args flags p) as (_ & -> & _).
  destruct (enableEvents_facts args flags) as (_ & -> & _).
  by rewrite app_nil_r.
Qed.

(** An element that is alone in satisfying [q] splits a list in one way. *)
Lemma unique_occurrence {A} (q : A → bool) (l1 : list A) x l2 pre y post :
  (l1 ++ x :: l2 = pre ++ y :: post)%list →
  q y = true →
  forallb (fun a => negb (q a)) l1 = true →
  forallb (fun a => negb (q a)) l2 = true →
  pre = l1 ∧ y = x ∧ post = l2.
Proof.
  revert pre. induction l1 as [|u l1 IH]; intros [|z pre] Heq Hy H1 H2; simpl in *.
  - by injection Heq as -> ->.
  - injection Heq as -> ->. rewrite forallb_app in H2. simpl in H2.
    rewrite Hy in H2. simpl in H2. by rewrite andb_false_r in H2.
  - injection Heq as -> _. by rewrite Hy in H1.
  - injection Heq as -> Heq. apply andb_true_iff in H1 as [_ H1].
    by destruct (IH pre Heq Hy H1 H2) as (-> & -> & ->).
Qed.

Lemma no_occurrence {A} (q : A → bool) (l pre : list A) y post :
  l = (pre ++ y :: post)%list → q y = true →
  forallb (fun a => negb (q a)) l = true → False.
Proof.
  intros -> Hy H. rewrite forallb_app in H. simpl in H. rewrite Hy in H.
  simpl in H. by rewrite andb_false_r in H.
Qed.

(** C2: in a run that parses its arguments, the operations submitted are
    none at all (the run stopped before the submissions) or else the code
    replacement, unless suppressed, followed by the schema replacement,
    unless suppressed; never the reverse.  Whenever the code replacement is
    attempted, what follows the attempt is the report of its outcome (on
    failure: the error message and the classifier's hint) and then, unless
    the schema submission is suppressed, the attempt of the schema
    replacement, whether the code replacement succeeded or failed. *)
Theorem C2_code_before_schema (w : World) (st : State)
    (argsInput : gmap string string) (flags : Flags) :
  parse w (expectedArgs w) = Ok (argsInput, flags) →
  ∃ evs,
    trace (run w st).2 = (trace st ++ evs)%list ∧
    (attempts evs = [] ∨
     attempts evs = ((if abiOnly flags then [] else ["setcode"]) ++
                     (if wasmOnly flags then [] else ["setabi"]))%list) ∧
    (∀ pre a post,
       evs = (pre ++ Transact [a] :: post)%list →
       act_name a = "setcode" →
       ∃ rest,
         post = (outcomeEvents (WasmSuccess (deployText flags)) (transact w [a]) ++ rest)%list ∧
         (∀ e, transact w [a] = Threw e → ∃ rest', post = (reportOf e ++ rest')%list) ∧
         (wasmOnly flags = false →
          ∃ b rest', rest = Transact [b] :: rest' ∧ act_name b = "setabi")).
Proof.
  intros Hparse.
  destruct (run_two w st argsInput flags flags Hparse eq_refl eq_refl)
    as (pre0 & r & d & reached & args & Hpre0 & Hrun & _).
  exists (pre0 ++ deployEvents w args flags reached)%list. rewrite Hrun. simpl.
  destruct (preparatory_quiet pre0 Hpre0) as (Hatt & _ & Hno).
  split; [done|]. split.
  { rewrite attempts_app, Hatt. apply deployEvents_attempts. }
  intros pre a post Heq Hname.
  assert (isAttempt "setcode" (Transact [a]) = true) as Hq.
  { simpl. rewrite Hname. reflexivity. }
  destruct (schemaEvents_facts w args flags) with (p := default notPrepared reached)
    as (_ & _ & Hs).
  destruct (enableEvents_facts args flags) as (_ & _ & He).
  destruct reached as [p|]; simpl in Heq, Hs.
  2:{ exfalso. rewrite app_nil_r in Heq.
      apply (no_occurrence (isAttempt "setcode") _ _ _ _ Heq Hq (Hno "setcode")). }
  unfold codeEvents in Heq. destruct (abiOnly flags).
  { exfalso. simpl in Heq.
    apply (no_occurrence (isAttempt "setcode") _ _ _ _ Heq Hq).
    by rewrite !forallb_app, (Hno "setcode"), Hs, (He "setcode"). }
  simpl in Heq.
  destruct (outcome_submission (WasmSuccess (deployText flags))
              (transact w [setcodeAction (prop args "account") (wasm p)]) eq_refl)
    as (_ & _ & Ho).
  apply (unique_occurrence (isAttempt "setcode")) in Heq as (-> & [= ->] & ->);
    [ | done | apply Hno | by rewrite !forallb_app, (Ho "setcode"), Hs, (He "setcode") ].
  eexists. split; [reflexivity|]. split.
  - intros e ->. simpl. by eexists.
  - intros Hw. unfold schemaEvents. rewrite Hw. simpl. by eexists _, _.
Qed.

Lemma C2_code_before_schema_witness :
  ∃ evs,
    trace (run codeRefused localState).2 = (trace localState ++ evs)%list ∧
    attempts evs = ["setcode"; "setabi"] ∧
    ∃ pre post,
      evs = (pre ++ Transact [setcodeAction "alice" "wasm-bytes"]
             :: Log (ErrorText "account alice has insufficient ram")
             :: Log (HintText "Try buying more RAM: proton ram:buy <account> <account> <bytes>")
             :: Transact [setabiAction "alice" "0e"] :: post)%list.
Proof.
  destruct (C2_code_before_schema codeRefused localState sampleArgs noFlags eq_refl)
    as (evs & Ht & _ & _).
  exists evs. split; [exact Ht|].
  simpl in Ht. rewrite <- Ht. split; [reflexivity|].
  eexists [_; _; _], _. reflexivity.
Defined.

(** C8: when the code-only and the schema-only modes are both requested, no
    operation is submitted, and everything else is as in the run without the
    two modes: the trace is that run's trace with the submissions (attempts
    and reports of their outcomes) taken out, and the outcome of the run and
    the disk at its end are the same. *)
Theorem C8_both_modes_vacuous_deploy (w : World) (st : State)
    (argsInput : gmap string string) (flags : Flags) :
  parse w (expectedArgs w) = Ok (argsInput, flags) →
  abiOnly flags = true →
  wasmOnly flags = true →
  let plain := withParse w (fun _ => Ok (argsInput, bothModes flags false)) in
  ∃ evs evs0,
    trace (run w st).2 = (trace st ++ evs)%list ∧
    trace (run plain st).2 = (trace st ++ evs0)%list ∧
    attempts evs = [] ∧
    evs = List.filter (fun ev => negb (ofSubmission ev)) evs0 ∧
    (run w st).1 = (run plain st).1 ∧
    disk (run w st).2 = disk (run plain st).2.
Proof.
  intros Hparse Ha Hw plain. subst plain.
  destruct (run_two w st argsInput flags (bothModes flags false) Hparse eq_refl eq_refl)
    as (pre & r & d & reached & args & Hpre & -> & ->).
  destruct (preparatory_quiet pre Hpre) as (Hatt & Hfil & _).
  eexists _, _. split; [reflexivity|]. split; [reflexivity|]. simpl.
  assert (deployEvents w args flags reached =
          List.filter (fun ev => negb (ofSubmission ev))
            (deployEvents w args (bothModes flags false) reached) ∧
          attempts (deployEvents w args flags reached) = []) as [Hg Hga].
  { destruct reached as [p|]; [|done]. unfold deployEvents.
    destruct (enableEvents_facts args flags) as (He & Hea & _).
    split.
    - unfold codeEvents at 1, schemaEvents at 1. rewrite Ha, Hw, !app_nil_l.
      rewrite !List.filter_app.
      destruct (codeEvents_facts w args (bothModes flags false) p) as (Hc & _).
      destruct (schemaEvents_facts w args (bothModes flags false) p) as (Hs & _).
      rewrite (filter_all_out _ _ Hc), (filter_all_out _ _ Hs), !app_nil_l.
      change (enableEvents args (bothModes flags false)) with (enableEvents args flags).
      by rewrite He.
    - rewrite !attempts_app, Hea.
      destruct (codeEvents_facts w args flags p) as (_ & ->).
      destruct (schemaEvents_facts w args flags p) as (_ & -> & _).
      by rewrite Ha, Hw. }
  split; [by rewrite attempts_app, Hatt, Hga|].
  split; [|done]. by rewrite List.filter_app, Hfil, <- Hg.
Qed.

Lemma C8_both_modes_vacuous_deploy_witness :
  let both := withParse bareWorld (fun _ => Ok (sampleArgs, bothOnly)) in
  trace (run both localState).2 =
  [Prompt "confirmedContract" true; Log CheckingExisting; Log NoIssueFound;
   EnableInline "alice"].
Proof.
  intros both.
  destruct (C8_both_modes_vacuous_deploy both localState sampleArgs bothOnly
              eq_refl eq_refl eq_refl)
    as (evs & evs0 & Ht & Ht0 & _ & Hf & _).
  rewrite Ht. simpl. rewrite Hf. simpl in Ht0. rewrite <- Ht0. reflexivity.
Defined.

(** ** Staging directory *)

Lemma neutral_ret {A} (Q : A → Prop) (a : A) : Q a → neutral Q (mret a).
Proof. by intros H st. Qed.

Lemma neutral_throw {A} (Q : A → Prop) (e : Exn) : neutral Q (throw e).
Proof. by intros st. Qed.

Lemma neutral_lift {A} (r : res A) : neutral (fun _ => True) (lift r).
Proof. intros st. simpl. split; [done | by destruct r]. Qed.

Lemma neutral_emit (ev : Event) : neutral (fun _ => True) (emit ev).
Proof. by intros st. Qed.

Lemma neutral_weaken {A} (Q Q' : A → Prop) (m : M A) :
  neutral Q m → (∀ a, Q a → Q' a) → neutral Q' m.
Proof.
  intros Hm Hq st. destruct (Hm st) as [Hd Hr]. split; [done|].
  destruct (m st).1; auto.
Qed.

Lemma neutral_bind {A B} (Q1 : A → Prop) (Q2 : B → Prop) (m : M A) (f : A → M B) :
  neutral Q1 m → (∀ a, Q1 a → neutral Q2 (f a)) → neutral Q2 (m ≫= f).
Proof.
  intros Hm Hf st. rewrite bind_eq. destruct (Hm st) as [Hd Hr].
  destruct (m st) as [[a|e] st1]; simpl in *; [|done].
  destruct (Hf a Hr st1) as [Hd' Hr']. split; [congruence | done].
Qed.

Lemma neutral_tryCatch {A} (Q : A → Prop) (m : M A) (h : Exn → M A) :
  neutral Q m → (∀ e, neutral Q (h e)) → neutral Q (tryCatch m h).
Proof.
  intros Hm Hh st. unfold tryCatch. destruct (Hm st) as [Hd Hr].
  destruct (m st) as [[a|e] st1]; simpl in *; [done|].
  destruct (Hh e st1) as [Hd' Hr']. split; [congruence | done].
Qed.

Lemma neutral_forEach {A B} (f : A → M B) (l : list A) :
  (∀ a, neutral (fun _ => True) (f a)) → neutral (fun _ => True) (forEach f l).
Proof.
  intros Hf. induction l as [|x l IH]; simpl; [by apply neutral_ret|].
  apply (neutral_bind (fun _ => True)); [done|]. intros y _.
  apply (neutral_bind (fun _ => True)); [done|]. intros ys _. by apply neutral_ret.
Qed.

Lemma neutral_readdirSync dir : neutral (fun _ => True) (readdirSync dir).
Proof. intros st. unfold readdirSync. by destruct (disk st !! dir). Qed.

Lemma neutral_run {A} (Q : A → Prop) (m : M A) st a st1 :
  neutral Q m → m st = (Ok a, st1) → disk st1 = disk st ∧ Q a.
Proof. intros H E. destruct (H st) as [Hd Hr]. by rewrite E in Hd, Hr. Qed.

Ltac neutral_step :=
  lazymatch goal with
  | |- neutral _ (mret _) => apply neutral_ret; try done
  | |- neutral _ (throw _) => apply neutral_throw
  | |- neutral _ (lift _) => apply neutral_lift
  | |- neutral _ (emit _) => apply neutral_emit
  | |- neutral _ (readdirSync _) => apply neutral_readdirSync
  | |- neutral _ (_ ≫= _) => apply (neutral_bind (fun _ => True)); [|intros ? _]
  | |- neutral _ (tryCatch _ _) => apply neutral_tryCatch; [|intros ?]
  | |- neutral _ (forEach _ _) => apply neutral_forEach; intros ?
  | |- neutral _ (if ?b then _ else _) => destruct b
  | |- neutral _ (match ?x with _ => _ end) => destruct x
  end.

Ltac neutral_auto := repeat neutral_step.

(** Once staged, the directory is on the disk whatever the downloads did. *)
Lemma stage_disk w dir st folder :
  makeTemp w = Ok folder →
  is_Some (disk (stageFromGitHub w dir st).2 !! folder).
Proof.
  intros Hmk. unfold stageFromGitHub, log, mkdtemp.
  rewrite !bind_eq. simpl. rewrite Hmk. rewrite !bind_eq. simpl.
  unfold downloadExt, download, tryCatch, log, emit. rewrite !bind_eq. simpl.
  assert (∀ (d : gmap string (list string)) f, is_Some (d !! folder) →
            is_Some (alter f folder d !! folder)) as Halter.
  { intros d f [l Hl]. exists (f l). by rewrite lookup_alter_eq, Hl. }
  assert (is_Some ((<[folder := []]> (disk st) : gmap string (list string)) !! folder)) as H0.
  { rewrite lookup_insert_eq. by eexists. }
  repeat match goal with
         | |- context [match fetch w ?u ?f with _ => _ end] => destruct (fetch w u f)
         end; simpl; rewrite ?bind_eq; simpl; auto.
Qed.

(** The resolver either stages nothing and leaves the disk alone, or
    returns the staging directory, which is then on the disk. *)
Lemma resolver_disk w dir st folder d st1 :
  makeTemp w = Ok folder →
  getDeployableFilesFromDir w dir st = (Ok d, st1) →
  (tmpFolder d = EmptyString ∧ disk st1 = disk st) ∨
  (tmpFolder d = folder ∧ is_Some (disk st1 !! folder)).
Proof.
  intros Hmk. unfold getDeployableFilesFromDir.
  assert (∀ dir' tmp, neutral (fun d => tmpFolder d = tmp)
    (readdirSync dir' ≫= fun dirCont =>
       let wasms := wasmsOf dirCont in
       let abis := abisOf dirCont in
       if (length wasms =? 0)%nat then throw (CannotFind "wasm" dir')
       else if (length abis =? 0)%nat then throw (CannotFind "abi" dir')
       else if (1 <? length wasms)%nat || (1 <? length abis)%nat
            then throw (OnlyOneAllowed dir')
            else mret {| wasmPath := join dir' (List.nth 0 wasms EmptyString);
                         abiPath := join dir' (List.nth 0 abis EmptyString);
                         tmpFolder := tmp |})) as Hscan.
  { intros dir' tmp. apply (neutral_bind (fun _ => True)); [apply neutral_readdirSync|].
    intros dirCont _. simpl. neutral_auto. }
  rewrite bind_eq. destruct (Js.test githubRe dir).
  - rewrite bind_eq. pose proof (stage_result w dir st) as Hr.
    pose proof (stage_disk w dir st folder Hmk) as Hd.
    destruct (stageFromGitHub w dir st) as [r0 st0]. simpl in Hr, Hd. subst r0.
    rewrite Hmk. unfold mret at 1. unfold M_ret at 1.
    intros Hrun. right.
    apply (neutral_run _ _ _ _ _ (Hscan folder folder)) in Hrun as [Hdisk Hres].
    by rewrite Hdisk.
  - unfold mret at 1. unfold M_ret at 1.
    intros Hrun. left.
    by apply (neutral_run _ _ _ _ _ (Hscan dir EmptyString)) in Hrun as [Hdisk Hres].
Qed.

(** The rest of the preparation does not touch the disk and hands the
    resolver's staging directory to the cleanup. *)
Lemma prepare_disk w args st folder p st1 :
  makeTemp w = Ok folder →
  prepare w args st = (Ok p, st1) →
  (folderToCleanup p = EmptyString ∧ disk st1 = disk st) ∨
  (folderToCleanup p = folder ∧ is_Some (disk st1 !! folder)).
Proof.
  intros Hmk. unfold prepare. rewrite bind_eq.
  destruct (getDeployableFilesFromDir w (prop args "source") st) as [[d|e] st0] eqn:Hres;
    [|done].
  match goal with |- ?rest st0 = _ → _ =>
    assert (neutral (fun p => folderToCleanup p = tmpFolder d) rest) as Hrest end.
  { unfold riskWarning, checkDataExists, probe, prompt, log. neutral_auto. }
  intros Hrun. apply (neutral_run _ _ _ _ _ Hrest) in Hrun as [Hdisk Hp].
  rewrite Hp, Hdisk.
  apply (resolver_disk w _ st folder d st0 Hmk Hres).
Qed.

Lemma truthy_nonempty (s : string) : s ≠ EmptyString → Js.truthy s = true.
Proof. intros H. unfold Js.truthy. by apply String.eqb_neq in H as ->. Qed.

Lemma deployConfirmed_cleans w args flags st st' folder :
  makeTemp w = Ok folder →
  folder ≠ EmptyString →
  disk st !! folder = None →
  deployConfirmed w args flags st = (Ok tt, st') →
  disk st' !! folder = None.
Proof.
  intros Hmk Hne Hfresh. unfold deployConfirmed. rewrite bind_eq.
  assert (∀ p st1,
    (folderToCleanup p = EmptyString ∧ disk st1 = disk st) ∨
    (folderToCleanup p = folder ∧ is_Some (disk st1 !! folder)) →
    (_ ← (if canDeploy p then deploy w args flags p else mret tt);
     if Js.truthy (folderToCleanup p) then rmSync (folderToCleanup p)
     else mret tt) st1 = (Ok tt, st') →
    disk st' !! folder = None) as Hrest.
  { intros p st1 Hcase. rewrite bind_eq.
    assert (∃ r evs, (if canDeploy p then deploy w args flags p else mret tt) st1
                     = (r, after st1 evs)) as (r & evs & ->).
    { destruct (canDeploy p).
      - rewrite deploy_spec. by eexists _, _.
      - exists (Ok tt), []. by rewrite after_nil. }
    destruct r as [[]|e]; [|done].
    destruct Hcase as [[-> Hd]|[-> [l Hl]]].
    - simpl. intros [= <-]. simpl. by rewrite Hd.
    - rewrite (truthy_nonempty _ Hne). unfold rmSync, after. cbn [disk trace].
      rewrite Hl. intros [= <-]. apply lookup_delete_eq. }
  destruct (clear flags); simpl.
  - apply (Hrest notPrepared st). by left.
  - destruct (prepare w args st) as [[p|e] st1] eqn:Hp; [|done].
    apply Hrest. apply (prepare_disk w args st folder p st1 Hmk Hp).
Qed.

(** A run that ends without an exception leaves no staging directory: if the
    directory that [mkdtemp] would create is not on the disk before the run,
    it is not on the disk after it.  This covers the runs declined at either
    confirmation. *)
Lemma run_completed_cleans w st st' folder :
  makeTemp w = Ok folder →
  folder ≠ EmptyString →
  disk st !! folder = None →
  run w st = (Ok tt, st') →
  disk st' !! folder = None.
Proof.
  intros Hmk Hne Hfresh. unfold run. rewrite bind_eq.
  destruct (readContractEnvFile_spec w st) as (evs0 & _ & ->).
  destruct (presets (default ∅ (contractFile w))) as [[presetValues confirmed] optionArgs].
  destruct (Js.truthy _); [done|].
  rewrite bind_eq. unfold lift at 1.
  destruct (parse w optionArgs) as [[argsInput flags]|e]; [|done].
  rewrite bind_eq.
  assert (∃ evs1 c,
     (if negb confirmed then prompt w "confirmedContract" else mret confirmed) (after st evs0)
     = (Ok c, after st evs1)) as (evs1 & c & ->).
  { destruct confirmed; simpl.
    - by exists evs0, true.
    - eexists _, _. unfold prompt, emit. rewrite bind_eq. unfold after. simpl.
      by rewrite <- app_assoc. }
  destruct c.
  - by apply deployConfirmed_cleans.
  - by intros [= <-].
Qed.

(** C1 fails on the code at three inputs.  The staging directory is not on
    the disk before the run and is still there after it: when the bytecode
    download fails and the resolver throws, when the schema query of the
    chain throws, and when the encoder of the schema throws. *)
Theorem C1_staging_directory_left_behind :
  let folder := "/tmp/foo-Ab12Cd" in
  disk emptyState !! folder = None ∧
  ((run bytecodeMissing emptyState).1 = Threw (CannotFind "wasm" folder) ∧
   disk (run bytecodeMissing emptyState).2 !! folder = Some ["token.abi"]) ∧
  ((run schemaQueryFails emptyState).1 = Threw (Raised EmptyString "connect ECONNREFUSED") ∧
   disk (run schemaQueryFails emptyState).2 !! folder = Some ["token.wasm"; "token.abi"]) ∧
  ((run encodingFails emptyState).1 = Threw (Raised EmptyString "Unknown type: assett") ∧
   disk (run encodingFails emptyState).2 !! folder = Some ["token.wasm"; "token.abi"]).
Proof. repeat split; vm_compute; reflexivity. Qed.

(** The run declined at the risk confirmation removes its staging
    directory and submits nothing. *)
Example risk_declined_cleans :
  (run riskDeclined emptyState).1 = Ok tt ∧
  disk (run riskDeclined emptyState).2 !! "/tmp/foo-Ab12Cd" = None ∧
  attempts (trace (run riskDeclined emptyState).2) = [].
Proof.
  split; [reflexivity|]. split; [|reflexivity].
  apply (run_completed_cleans riskDeclined emptyState);
    [reflexivity | discriminate | reflexivity | by vm_compute].
Qed.

(** * Further properties *)

(** ** Schema differ *)

Lemma in_names (name : string) (l : list AbiTable) (p : AbiTable → bool) :
  name ∈ List.map table_name (List.filter p l) ↔
  ∃ t, t ∈ l ∧ p t = true ∧ table_name t = name.
Proof.
  rewrite list_elem_of_In, in_map_iff. split.
  - intros (t & Hn & Hin). apply filter_In in Hin as [Hin Hp].
    exists t. by rewrite list_elem_of_In.
  - intros (t & Hin & Hp & Hn). exists t. split; [done|].
    apply filter_In. by rewrite <- list_elem_of_In.
Qed.

(** X1: a table name is never reported both as removed and as updated. *)
Theorem diff_removed_and_updated_disjoint (existingABI newAbi : Abi) (name : string) :
  name ∈ removed (compareTables existingABI newAbi) →
  name ∉ updated (compareTables existingABI newAbi).
Proof.
  rewrite compareTables_spec. simpl. rewrite !in_names.
  intros (t & _ & Hno & <-) (t' & _ & Hup & Heq).
  unfold isUpdated in Hup. rewrite Heq in Hup.
  apply negb_true_iff in Hno. by rewrite Hno in Hup.
Qed.

Lemma diff_removed_and_updated_disjoint_witness :
  let existingABI := {| structs := [someStruct];
                        tables := [tableOf "accounts" "account"; tableOf "stat" "account"] |} in
  let newAbi := {| structs := []; tables := [tableOf "stat" "account"] |} in
  "accounts" ∉ updated (compareTables existingABI newAbi).
Proof.
  intros existingABI newAbi.
  apply (diff_removed_and_updated_disjoint existingABI newAbi "accounts").
  apply list_elem_of_In. simpl. by left.
Defined.

(** X2: the differ reports only tables of the existing schema.  A name is
    removed exactly when an existing table carries it and no candidate table
    does; an updated name is carried by an existing and by a candidate
    table.  A table that only the candidate has is in neither list. *)
Theorem diff_reports_existing_tables_only (existingABI newAbi : Abi) (name : string) :
  (name ∈ removed (compareTables existingABI newAbi) ↔
   name ∈ List.map table_name (tables existingABI) ∧ hasTable newAbi name = false) ∧
  (name ∈ updated (compareTables existingABI newAbi) →
   name ∈ List.map table_name (tables existingABI) ∧ hasTable newAbi name = true) ∧
  (hasTable existingABI name = false →
   (name ∉ removed (compareTables existingABI newAbi)) ∧
   (name ∉ updated (compareTables existingABI newAbi))).
Proof.
  rewrite compareTables_spec. simpl. rewrite !in_names.
  assert (∀ abi, name ∈ List.map table_name (tables abi) ↔ hasTable abi name = true) as Hin.
  { intros abi. rewrite hasTable_names, existsb_exists, list_elem_of_In. split.
    - intros H. exists name. split; [done | apply String.eqb_refl].
    - intros (x & Hx & ->%String.eqb_eq). done. }
  split; [|split].
  - split.
    + intros (t & Ht & Hno & <-). split.
      * apply list_elem_of_In, in_map. by apply list_elem_of_In.
      * by apply negb_true_iff.
    + intros [Hex Hno]. apply list_elem_of_In, in_map_iff in Hex as (t & <- & Ht).
      exists t. rewrite list_elem_of_In, Hno. done.
  - intros (t & Ht & Hup & <-). split.
    + apply list_elem_of_In, in_map. by apply list_elem_of_In.
    + unfold isUpdated in Hup. by apply andb_true_iff in Hup as [-> _].
  - intros Hno. split.
    + intros (t & Ht & _ & <-). rewrite hasTable_self in Hno; done.
    + intros (t & Ht & _ & <-). rewrite hasTable_self in Hno; done.
Qed.

Lemma diff_reports_existing_tables_only_witness :
  let existingABI := {| structs := []; tables := [tableOf "stat" "account"] |} in
  let newAbi := {| structs := [];
                   tables := [tableOf "stat" "account"; tableOf "votes" "vote"] |} in
  ("votes" ∉ removed (compareTables existingABI newAbi)) ∧
  ("votes" ∉ updated (compareTables existingABI newAbi)).
Proof.
  intros existingABI newAbi.
  apply (diff_reports_existing_tables_only existingABI newAbi "votes"). reflexivity.
Defined.

(** X3: a record descriptor is looked up by name and the first one of that
    name wins; the lookup misses exactly when no descriptor has the name. *)
Theorem extractStruct_first_of_name (abiStructs : list AbiStruct) (structName : string) :
  match extractStruct abiStructs structName with
  | Some found =>
      ∃ i, abiStructs !! i = Some found ∧ struct_name found = structName ∧
           ∀ j other, (j < i)%nat → abiStructs !! j = Some other →
                      struct_name other ≠ structName
  | None => ∀ other, other ∈ abiStructs → struct_name other ≠ structName
  end.
Proof.
  unfold extractStruct. induction abiStructs as [|s l IH]; simpl.
  - intros other H. by apply elem_of_nil in H.
  - destruct (String.eqb_spec (struct_name s) structName) as [Heq|Hne].
    + exists 0%nat. split; [done|]. split; [done|]. intros; lia.
    + destruct (List.find _ l) as [found|].
      * destruct IH as (i & Hi & Hn & Hb). exists (S i).
        split; [done|]. split; [done|].
        intros [|j] other Hj Ho; simpl in Ho.
        -- by injection Ho as <-.
        -- apply (Hb j); [lia | done].
      * intros other [->|Ho]%elem_of_cons; [done | by apply IH].
Qed.

(** ** Risk assessor *)

(** X4: the report lists the names that hold rows in the order they were
    given, so it is never longer than the list asked about, and it is empty
    exactly when no table asked about returns a row. *)
Theorem risk_report_follows_input (w : World) (account : string)
    (tables : list string) (st : State) :
  ∃ found,
    checkDataExists w account tables st = (Ok found, st) ∧
    sublist found (Some <$> tables) ∧
    (length found ≤ length tables)%nat ∧
    (found = [] ↔
     ∀ name, name ∈ tables →
             ∀ rows, get_table_by_scope w account name = Ok rows → rows = []).
Proof.
  eexists. split; [apply checkDataExists_spec|].
  assert (∀ name, holdsData w account name = false ↔
            ∀ rows, get_table_by_scope w account name = Ok rows → rows = []) as Hno.
  { intros name. unfold holdsData.
    destruct (get_table_by_scope w account name) as [rows|e].
    - destruct rows; simpl; split; try done.
      + intros _ rows' [= <-]. done.
      + intros H. by specialize (H _ eq_refl).
    - split; [by intros _ rows' | done]. }
  split; [|split].
  - induction tables as [|t l IH]; simpl; [constructor|].
    destruct (holdsData w account t); simpl.
    + by apply sublist_skip.
    + by apply sublist_cons.
  - rewrite length_map. apply filter_length_le.
  - split.
    + intros Hnil name Hin. apply Hno.
      destruct (holdsData w account name) eqn:Hd; [|done].
      assert (In name (List.filter (holdsData w account) tables)) as Hf.
      { apply filter_In. by rewrite <- list_elem_of_In. }
      destruct (List.filter _ tables); [done | discriminate].
    + intros Hall. rewrite filter_none; [done|].
      intros name Hin. apply Hno. by apply Hall.
Qed.

(** ** Error classifier and error report *)

Lemma toLowerCase_idem (s : string) : Js.toLowerCase (Js.toLowerCase s) = Js.toLowerCase s.
Proof.
  induction s as [|c s IH]; simpl; [done|]. rewrite IH. f_equal.
  unfold Js.lowerChar.
  destruct ((65 <=? nat_of_ascii c)%nat && (nat_of_ascii c <=? 90)%nat) eqn:Hc.
  - apply andb_true_iff in Hc as [H1%Nat.leb_le H2%Nat.leb_le].
    rewrite nat_ascii_embedding by lia.
    replace ((65 <=? nat_of_ascii c + 32)%nat && (nat_of_ascii c + 32 <=? 90)%nat)
      with false; [done|].
    symmetry. apply andb_false_iff. right. apply Nat.leb_gt. lia.
  - by rewrite Hc.
Qed.

Lemma entryTest_folds h m m' :
  foldsCase h → Js.toLowerCase m = Js.toLowerCase m' → entryTest h m = entryTest h m'.
Proof.
  unfold foldsCase, entryTest. destruct (pattern h) as [p|r]; intros Hf Hm.
  - by rewrite Hm.
  - unfold Js.test. f_equal. unfold Js.matchAlt, Js.fold. rewrite Hf.
    by rewrite Hm.
Qed.

Lemma getHintIn_folds hints m m' :
  Forall foldsCase hints → Js.toLowerCase m = Js.toLowerCase m' →
  getHintIn hints m = getHintIn hints m'.
Proof.
  intros Hall Hm. induction Hall as [|h l Hh Hl IH]; [done|].
  rewrite !getHintIn_cons, (entryTest_folds h m m' Hh Hm), IH. done.
Qed.

Lemma ERROR_HINTS_fold_case : Forall foldsCase ERROR_HINTS.
Proof. unfold ERROR_HINTS. repeat constructor. Qed.

(** X5: the classifier ignores letter case: two messages with the same
    lower-case form get the same hint. *)
Theorem classification_ignores_case (m m' : string) :
  Js.toLowerCase m = Js.toLowerCase m' →
  getHintForError m = getHintForError m'.
Proof. apply getHintIn_folds, ERROR_HINTS_fold_case. Qed.

Lemma classification_ignores_case_witness :
  getHintForError "DEADLINE EXCEEDED" = getHintForError "Deadline exceeded".
Proof. apply classification_ignores_case. reflexivity. Defined.




(** X7: when the thrown value has a first detail message, the report and
    the hint are made from it and the value's own message plays no part. *)
Theorem error_report_prefers_details (details0 message message' : string) (st : State) :
  details0 ≠ EmptyString →
  parseDetailsError (Raised details0 message) st =
  parseDetailsError (Raised details0 message') st ∧
  ∃ rest, trace (parseDetailsError (Raised details0 message) st).2
          = (trace st ++ Log (ErrorText details0) :: rest)%list.
Proof.
  intros Hd. rewrite !parseDetailsError_spec. unfold reportOf, after. simpl.
  unfold Js.orElse. rewrite (truthy_nonempty _ Hd). simpl.
  rewrite (truthy_nonempty _ Hd). split; [done|]. by eexists.
Qed.

Lemma error_report_prefers_details_witness :
  parseDetailsError (Raised "account alice has insufficient ram" "Internal Service Error")
    emptyState =
  parseDetailsError (Raised "account alice has insufficient ram" "deadline exceeded")
    emptyState.
Proof.
  apply (error_report_prefers_details "account alice has insufficient ram"). discriminate.
Defined.

(** X8: a message that mentions insufficient RAM, in any letter case, gets
    the hint to buy RAM, whatever else it mentions: that entry is tried
    first. *)
Theorem ram_hint_has_priority (errorMessage : string) :
  ciSubstring "insufficient ram" errorMessage →
  getHintForError errorMessage =
  Some "Try buying more RAM: proton ram:buy <account> <account> <bytes>".
Proof.
  intros H. unfold getHintForError, ERROR_HINTS. rewrite getHintIn_cons.
  replace (entryTest _ errorMessage) with true; [done|].
  symmetry. unfold entryTest, Js.test, Js.matchAlt, Js.fold. simpl.
  apply orb_true_iff. left. by apply includes_spec.
Qed.

Lemma ram_hint_has_priority_witness :
  getHintForError "billed CPU time exceeded; account has Insufficient RAM" =
  Some "Try buying more RAM: proton ram:buy <account> <account> <bytes>".
Proof.
  apply ram_hint_has_priority.
  exists "billed cpu time exceeded; account has ", EmptyString. reflexivity.
Defined.

(** ** Strings *)

Lemma str_app_cons (x : ascii) (a b : string) : String x a ++ b = String x (a ++ b).
Proof. reflexivity. Qed.

Lemma str_app_assoc (a b c : string) : (a ++ b) ++ c = a ++ (b ++ c).
Proof. induction a as [|x a IH]; [done | by rewrite !str_app_cons, IH]. Qed.

Lemma chars_app (a b : string) :
  JsClass.chars (a ++ b) = (JsClass.chars a ++ JsClass.chars b)%list.
Proof.
  induction a as [|x a IH]; [done|]. rewrite str_app_cons. simpl. by rewrite IH.
Qed.

Lemma toLowerCase_app (a b : string) :
  Js.toLowerCase (a ++ b) = Js.toLowerCase a ++ Js.toLowerCase b.
Proof.
  induction a as [|x a IH]; [done|]. rewrite str_app_cons. simpl.
  by rewrite IH, str_app_cons.
Qed.

Lemma endsWith_cons (c : ascii) (s p : string) :
  Js.endsWith (String c s) p = String.eqb (String c s) p || Js.endsWith s p.
Proof. reflexivity. Qed.

Lemma endsWith_spec (s p : string) : Js.endsWith s p = true ↔ ∃ pre, s = pre ++ p.
Proof.
  induction s as [|c s IH].
  - change (Js.endsWith EmptyString p) with (String.eqb EmptyString p || false).
    rewrite orb_false_r, String.eqb_eq. split.
    + intros <-. by exists EmptyString.
    + intros [[|x pre] H]; [done | discriminate].
  - rewrite endsWith_cons, orb_true_iff, String.eqb_eq, IH. split.
    + intros [<-|[pre ->]]; [by exists EmptyString | by exists (String c pre)].
    + intros [[|x pre] H]; [by left|].
      right. exists pre. rewrite str_app_cons in H. by injection H.
Qed.

Lemma endsWith_app (x p : string) : Js.endsWith (x ++ p) p = true.
Proof. apply endsWith_spec. by exists x. Qed.

Lemma endsWith_last (s p : string) (c : ascii) :
  Js.endsWith s (p ++ String c EmptyString) = true → last (JsClass.chars s) = Some c.
Proof.
  intros [pre ->]%endsWith_spec. rewrite !chars_app. simpl.
  rewrite app_assoc. apply last_snoc.
Qed.

Lemma startsWith_app (p s : string) : Js.startsWith (p ++ s) p = true.
Proof. apply startsWith_spec. by exists s. Qed.

Lemma stripPrefix_app (p s : string) : Js.stripPrefix (p ++ s) p = Some s.
Proof.
  induction p as [|c p IH]; simpl; [done|]. by rewrite Ascii.eqb_refl.
Qed.

Lemma splitOn_free (sep : ascii) (s : string) :
  JsClass.testAny (Ascii.eqb sep) s = false → Js.splitOn sep s = [s].
Proof.
  unfold JsClass.testAny. induction s as [|c s IH]; simpl; [done|].
  intros [Hc Hs]%orb_false_iff. rewrite Ascii.eqb_sym, Hc, (IH Hs). done.
Qed.

Lemma splitOn_app (sep : ascii) (a b : string) :
  JsClass.testAny (Ascii.eqb sep) a = false →
  Js.splitOn sep (a ++ String sep b) = a :: Js.splitOn sep b.
Proof.
  unfold JsClass.testAny. induction a as [|c a IH]; simpl.
  - by rewrite Ascii.eqb_refl.
  - intros [Hc Hs]%orb_false_iff. rewrite Ascii.eqb_sym, Hc, (IH Hs). done.
Qed.

(** [split] undoes [join] when no joined piece holds the separator. *)
Lemma splitOn_joinWith (sep : ascii) (l : list string) :
  l ≠ [] →
  Forall (fun seg => JsClass.testAny (Ascii.eqb sep) seg = false) l →
  Js.splitOn sep (Js.joinWith (String sep EmptyString) l) = l.
Proof.
  intros Hne Hall. induction Hall as [|x l Hx Hl IH]; [done|].
  destruct l as [|y l].
  - by apply splitOn_free.
  - change (Js.joinWith (String sep EmptyString) (x :: y :: l))
      with (x ++ String sep (Js.joinWith (String sep EmptyString) (y :: l))).
    rewrite splitOn_app by done. f_equal. by apply IH.
Qed.

(** ** Artifact resolver, continued *)

(** X9: for a source that is not a GitHub address the resolver only reads:
    the disk and the trace are as before, no staging directory is returned,
    and the two paths it returns lie in the source directory. *)
Theorem local_source_is_only_read (w : World) (dir : string) (st : State) :
  Js.test githubRe dir = false →
  (getDeployableFilesFromDir w dir st).2 = st ∧
  ∀ d, (getDeployableFilesFromDir w dir st).1 = Ok d →
       tmpFolder d = EmptyString ∧
       ∃ wasmFile abiFile, wasmPath d = join dir wasmFile ∧ abiPath d = join dir abiFile.
Proof.
  intros Hlocal.
  destruct (getDeployableFilesFromDir w dir st) as [r st'] eqn:Hrun. simpl.
  unfold getDeployableFilesFromDir in Hrun. rewrite Hlocal, bind_eq in Hrun.
  unfold mret at 1 in Hrun. unfold M_ret at 1 in Hrun.
  rewrite bind_eq in Hrun. unfold readdirSync in Hrun.
  destruct (disk st !! dir) as [l|]; [|by injection Hrun as <- <-].
  destruct (length (wasmsOf l) =? 0)%nat; [by injection Hrun as <- <-|].
  destruct (length (abisOf l) =? 0)%nat; [by injection Hrun as <- <-|].
  destruct ((1 <? length (wasmsOf l))%nat || (1 <? length (abisOf l))%nat);
    [by injection Hrun as <- <-|].
  injection Hrun as <- <-.
  split; [done|]. intros d [= <-]. split; [done|]. by eexists _, _.
Qed.

Lemma local_source_is_only_read_witness :
  (getDeployableFilesFromDir bareWorld "/proj/target" localState).2 = localState.
Proof.
  apply (local_source_is_only_read bareWorld "/proj/target" localState). reflexivity.
Defined.

Lemma extRe_test (ext s : string) :
  Js.test (extRe ext) s = Js.endsWith (Js.toLowerCase s) (Js.toLowerCase ("." ++ ext)).
Proof. unfold Js.test, extRe, Js.matchAlt, Js.fold. simpl. apply orb_false_r. Qed.

Lemma last_chars_app (a : string) (p : string) (c : ascii) :
  last (JsClass.chars (a ++ p ++ String c EmptyString)) = Some c.
Proof. rewrite !chars_app. simpl. rewrite !app_assoc. apply last_snoc. Qed.

Lemma wasm_file_is_bytecode (name : string) :
  Js.test (extRe "wasm") (name ++ ".wasm") = true ∧
  Js.test (extRe "abi") (name ++ ".wasm") = false.
Proof.
  rewrite !extRe_test, toLowerCase_app.
  change (Js.toLowerCase ".wasm") with ".wasm".
  change (Js.toLowerCase ("." ++ "wasm")) with ".wasm".
  change (Js.toLowerCase ("." ++ "abi")) with (".ab" ++ String "i" EmptyString).
  split; [apply endsWith_app|].
  destruct (Js.endsWith _ _) eqn:He; [|done].
  apply endsWith_last in He.
  change ".wasm" with (".was" ++ String "m" EmptyString) in He.
  rewrite last_chars_app in He. discriminate.
Qed.

Lemma abi_file_is_schema (name : string) :
  Js.test (extRe "abi") (name ++ ".abi") = true ∧
  Js.test (extRe "wasm") (name ++ ".abi") = false.
Proof.
  rewrite !extRe_test, toLowerCase_app.
  change (Js.toLowerCase ".abi") with ".abi".
  change (Js.toLowerCase ("." ++ "abi")) with ".abi".
  change (Js.toLowerCase ("." ++ "wasm")) with (".was" ++ String "m" EmptyString).
  split; [apply endsWith_app|].
  destruct (Js.endsWith _ _) eqn:He; [|done].
  apply endsWith_last in He.
  change ".abi" with (".ab" ++ String "i" EmptyString) in He.
  rewrite last_chars_app in He. discriminate.
Qed.

Lemma downloadExt_ok w tmp dirArr name ext st :
  fetch w ("https://raw.githubusercontent.com/" ++ Js.joinWith "/" dirArr ++ "/"
           ++ name ++ "." ++ ext) (join tmp (name ++ "." ++ ext)) = Ok tt →
  downloadExt w tmp dirArr name ext st =
  (Ok true, {| disk := alter (fun l => (l ++ [(name ++ "." ++ ext)%string])%list) tmp (disk st);
               trace := trace st |}).
Proof.
  intros Hf. unfold downloadExt, tryCatch, download. rewrite bind_eq, Hf. done.
Qed.


(** X10: a GitHub address [https://github.com/owner/repo/marker/rest...] is
    resolved from the raw files of [owner/repo/rest...] named after the last
    path piece (the third piece is dropped).  When both downloads succeed,
    the staging directory holds exactly the two files, the resolver returns
    their paths in it together with the directory, and the trace gained the
    two progress lines. *)
Theorem github_source_is_staged (w : World) (st : State)
    (owner repo marker : string) (rest : list string) (tmp : string) :
  Forall slashFree (owner :: repo :: marker :: rest) →
  makeTemp w = Ok tmp →
  let kept := owner :: repo :: rest in
  fetch w (rawFileOf kept "wasm") (join tmp (stagedName kept "wasm")) = Ok tt →
  fetch w (rawFileOf kept "abi") (join tmp (stagedName kept "abi")) = Ok tt →
  getDeployableFilesFromDir w
    ("https://github.com/" ++ Js.joinWith "/" (owner :: repo :: marker :: rest)) st
  = (Ok {| wasmPath := join tmp (stagedName kept "wasm");
           abiPath := join tmp (stagedName kept "abi");
           tmpFolder := tmp |},
     {| disk := <[tmp := [stagedName kept "wasm"; stagedName kept "abi"]]> (disk st);
        trace := (trace st ++ [Log SourceIsGitHub; Log DownloadCompleted])%list |}).
Proof.
  intros Hfree Hmk kept Hw Ha.
  unfold getDeployableFilesFromDir.
  assert (Js.test githubRe
            ("https://github.com/" ++ Js.joinWith "/" (owner :: repo :: marker :: rest))
          = true) as ->.
  { unfold Js.test, githubRe. cbn [Js.alternatives existsb]. rewrite orb_false_r.
    unfold Js.matchAlt, Js.fold. cbn [Js.anchorStart Js.anchorEnd Js.ignoreCase].
    change "https://github.com/" with ("https://github.com" ++ "/").
    rewrite str_app_assoc. apply startsWith_app. }
  rewrite !bind_eq. unfold stageFromGitHub. rewrite bind_eq.
  unfold log at 1, emit at 1. rewrite bind_eq. unfold mkdtemp at 1. rewrite Hmk.
  unfold stripGithub. rewrite stripPrefix_app.
  rewrite (splitOn_joinWith "/"%char) by done.
  change (splice_2_1 (owner :: repo :: marker :: rest)) with kept.
  rewrite bind_eq. cbn [forEach]. rewrite bind_eq.
  rewrite (downloadExt_ok _ _ _ _ _ _ Hw). rewrite bind_eq, bind_eq.
  rewrite (downloadExt_ok _ _ _ _ _ _ Ha).
  cbn [disk trace]. rewrite !alter_insert_eq. cbn [app].
  unfold log, emit, readdirSync.
  cbv beta iota zeta delta [forallb andb mret M_ret mbind M_bind disk trace].
  rewrite lookup_insert_eq.
  fold (stagedName kept "wasm") (stagedName kept "abi").
  unfold wasmsOf, abisOf. cbn [List.filter].
  unfold stagedName.
  destruct (wasm_file_is_bytecode (List.last kept EmptyString)) as [Hww Haw].
  destruct (abi_file_is_schema (List.last kept EmptyString)) as [Haa Hwa].
  change ("." ++ "wasm") with ".wasm". change ("." ++ "abi") with ".abi".
  rewrite Hww, Haw, Haa, Hwa. cbn [length Nat.eqb Nat.ltb Nat.leb orb List.nth].
  by rewrite <- app_assoc.
Qed.

Lemma github_source_is_staged_witness :
  (getDeployableFilesFromDir bareWorld "https://github.com/org/repo/tree/main/token"
     emptyState).1
  = Ok {| wasmPath := "/tmp/foo-Ab12Cd/token.wasm";
          abiPath := "/tmp/foo-Ab12Cd/token.abi";
          tmpFolder := "/tmp/foo-Ab12Cd" |}.
Proof.
  assert (Forall slashFree ["org"; "repo"; "tree"; "main"; "token"]) as Hfree
    by (repeat constructor).
  exact (f_equal fst
           (github_source_is_staged bareWorld emptyState "org" "repo" "tree"
              ["main"; "token"] "/tmp/foo-Ab12Cd" Hfree eq_refl eq_refl eq_refl)).
Defined.



(** ** The command, case by case *)

Lemma readContractEnvFile_events w st :
  readContractEnvFile w st = (Ok (default ∅ (contractFile w)), after st (configEvents w)).
Proof.
  unfold readContractEnvFile, configEvents. destruct (contractFile w) as [c|]; simpl.
  - destruct (0 <? size c)%nat; [done | by rewrite after_nil].
  - by rewrite after_nil.
Qed.

(** The ways a run can go before the confirmed block. *)
Lemma run_cases w st :
  if wrongNetwork w then
    run w st = (Threw (WrongNetwork (chain w) (prop (default ∅ (contractFile w)) "NETWORK")),
                after st (configEvents w))
  else
    match parse w (expectedArgs w) with
    | Threw e => run w st = (Threw e, after st (configEvents w))
    | Ok (argsInput, flags) =>
        if (presets (default ∅ (contractFile w))).1.2 then
          run w st = deployConfirmed w (argsOf w argsInput) flags (after st (configEvents w))
        else if answer w "confirmedContract" then
          run w st = deployConfirmed w (argsOf w argsInput) flags
                       (after st (configEvents w ++ [Prompt "confirmedContract" true])%list)
        else
          run w st = (Ok tt, after st (configEvents w ++ [Prompt "confirmedContract" false])%list)
    end.
Proof.
  unfold run, wrongNetwork, expectedArgs, argsOf.
  rewrite bind_eq, readContractEnvFile_events.
  destruct (presets (default ∅ (contractFile w))) as [[presetValues confirmed] optionArgs].
  cbn [fst snd].
  destruct (Js.truthy (prop (default ∅ (contractFile w)) "NETWORK") &&
            negb (String.eqb (chain w) (prop (default ∅ (contractFile w)) "NETWORK"))) eqn:Hnet.
  - apply andb_true_iff in Hnet as [-> _]. done.
  - cbv beta iota. change (Js.truthy EmptyString) with false. cbv beta iota.
    destruct (parse w optionArgs) as [[argsInput flags]|e] eqn:Hparse.
    2:{ rewrite bind_eq. by unfold lift at 1. }
    destruct confirmed; cbn [negb].
    + rewrite bind_eq. unfold lift at 1. by rewrite bind_eq.
    + destruct (answer w "confirmedContract") eqn:Hans;
        rewrite bind_eq; unfold lift at 1; rewrite bind_eq;
        unfold prompt, emit; rewrite bind_eq; unfold after at 1; cbn [disk trace];
        unfold mret at 1; unfold M_ret at 1; rewrite Hans;
        unfold after; cbn [disk trace]; by rewrite <- app_assoc.
Qed.

Lemma configEvents_idle w :
  forallb idle (configEvents w) = true ∧ forallb preparatory (configEvents w) = true.
Proof.
  unfold configEvents. destruct (contractFile w) as [c|]; [|done].
  by destruct (0 <? size c)%nat.
Qed.

(** X12: when the .contract file names a network and it is not the
    connected one, the run is refused with the wrong-network error before
    the arguments are parsed: nothing is asked, read from the source or
    submitted, and the disk is as before. *)
Theorem wrong_network_is_refused (w : World) (st : State)
    (contractEnv : gmap string string) (expected : string) :
  contractFile w = Some contractEnv →
  contractEnv !! "NETWORK" = Some expected →
  expected ≠ EmptyString →
  expected ≠ chain w →
  run w st = (Threw (WrongNetwork (chain w) expected),
              {| disk := disk st; trace := (trace st ++ [Log FoundContractFile])%list |}).
Proof.
  intros Hfile Hnet Hne Hother. pose proof (run_cases w st) as Hrun.
  unfold wrongNetwork, configEvents, prop in Hrun. rewrite Hfile in Hrun.
  simpl in Hrun. rewrite Hnet in Hrun. simpl in Hrun.
  rewrite (truthy_nonempty _ Hne) in Hrun.
  assert (String.eqb (chain w) expected = false) as Hc.
  { apply String.eqb_neq. congruence. }
  rewrite Hc in Hrun. simpl in Hrun.
  assert ((0 <? size contractEnv)%nat = true) as Hsize.
  { apply Nat.ltb_lt. destruct (decide (size contractEnv = 0%nat)) as [H0|]; [|lia].
    apply map_size_empty_iff in H0. subst. by rewrite lookup_empty in Hnet. }
  by rewrite Hsize in Hrun.
Qed.

Lemma wrong_network_is_refused_witness :
  run otherNetwork emptyState =
  (Threw (WrongNetwork "proton" "proton-test"),
   {| disk := ∅; trace := [Log FoundContractFile] |}).
Proof.
  apply (wrong_network_is_refused otherNetwork emptyState {["NETWORK" := "proton-test"]}
           "proton-test"); [reflexivity | reflexivity | discriminate | discriminate].
Defined.







Lemma run_shape w st argsInput flags :
  parse w (expectedArgs w) = Ok (argsInput, flags) →
  ∃ pre r d reached,
    forallb preparatory pre = true ∧
    run w st =
      (r, {| disk := d;
             trace := (trace st ++ pre
                       ++ deployEvents w (argsOf w argsInput) flags reached)%list |}).
Proof.
  intros Hparse. pose proof (run_cases w st) as Hrun. rewrite Hparse in Hrun.
  destruct (configEvents_idle w) as [_ Hcfg].
  destruct (wrongNetwork w).
  { exists (configEvents w), (Threw (WrongNetwork (chain w)
              (prop (default ∅ (contractFile w)) "NETWORK"))), (disk st), None.
    split; [done|]. rewrite Hrun. unfold after. simpl. by rewrite app_nil_r. }
  assert (∀ evs0, forallb preparatory evs0 = true →
    ∃ pre r d reached, forallb preparatory pre = true ∧
      deployConfirmed w (argsOf w argsInput) flags (after st evs0) =
      (r, {| disk := d;
             trace := (trace st ++ pre
                       ++ deployEvents w (argsOf w argsInput) flags reached)%list |}))
    as Hblock.
  { intros evs0 Hevs0.
    destruct (deployConfirmed_two w (argsOf w argsInput) flags flags (after st evs0)
                eq_refl eq_refl) as (pre & r & d & reached & Hpre & Heq & _).
    exists (evs0 ++ pre)%list, r, d, reached.
    split; [by rewrite forallb_app, Hevs0, Hpre|].
    rewrite Heq. simpl. by rewrite <- !app_assoc. }
  destruct ((presets (default ∅ (contractFile w))).1.2).
  - rewrite Hrun. by apply Hblock.
  - destruct (answer w "confirmedContract"); rewrite Hrun.
    + apply Hblock. by rewrite forallb_app, Hcfg.
    + exists (configEvents w ++ [Prompt "confirmedContract" false])%list, (Ok tt),
        (disk st), None.
      split; [by rewrite forallb_app, Hcfg|]. unfold after. simpl. by rewrite app_nil_r.
Qed.

Lemma preparatory_no_transact (pre : list Event) (ev : Event) :
  forallb preparatory pre = true → ev ∈ pre → ofSubmission ev = false ∧ isEnable ev = false.
Proof.
  intros Hall Hin. rewrite forallb_forall in Hall.
  apply list_elem_of_In, Hall in Hin.
  destruct ev as [m| | |]; try done. by destruct m.
Qed.

Lemma outcome_no_transact (success : LogMsg) (r : res string) (ev : Event) :
  ev ∈ outcomeEvents success r → ∃ m, ev = Log m.
Proof.
  destruct r as [id|e]; simpl.
  - rewrite !elem_of_cons, elem_of_nil. intros [->|[->|[]]]; by eexists.
  - unfold reportOf. rewrite elem_of_cons. intros [->|Hin]; [by eexists|].
    destruct (getHintForError _) as [h|]; [|by apply elem_of_nil in Hin].
    destruct (Js.truthy h); [|by apply elem_of_nil in Hin].
    apply list_elem_of_singleton in Hin as ->. by eexists.
Qed.

(** The chain operations among the events of the submissions. *)
Lemma transact_in_deployEvents w args flags reached actions :
  Transact actions ∈ deployEvents w args flags reached →
  ∃ p, reached = Some p ∧
       ((abiOnly flags = false ∧
         actions = [setcodeAction (prop args "account") (wasm p)]) ∨
        (wasmOnly flags = false ∧
         actions = [setabiAction (prop args "account") (abi p)])).
Proof.
  destruct reached as [p|]; simpl; [|by intros H%elem_of_nil].
  rewrite !elem_of_app. unfold codeEvents, schemaEvents, enableEvents.
  intros [Hc|[Hs|He]].
  - destruct (abiOnly flags); [by apply elem_of_nil in Hc|].
    apply elem_of_cons in Hc as [[= ->]|Hc]; [by eauto|].
    by apply outcome_no_transact in Hc as [m Hm].
  - destruct (wasmOnly flags); [by apply elem_of_nil in Hs|].
    apply elem_of_cons in Hs as [[= ->]|Hs]; [by eauto|].
    by apply outcome_no_transact in Hs as [m Hm].
  - destruct (disableInline flags); [by apply elem_of_nil in He|].
    by apply list_elem_of_singleton in He.
Qed.

Lemma argsOf_preset_account w argsInput :
  Js.truthy (prop (default ∅ (contractFile w)) "ACCOUNT") = true →
  prop (argsOf w argsInput) "account" = prop (default ∅ (contractFile w)) "ACCOUNT".
Proof.
  intros Hacc. unfold argsOf, presets. rewrite Hacc.
  unfold prop at 3.
  assert (∀ pv : gmap string string, ∀ v, pv !! "account" = Some v →
            default EmptyString ((pv ∪ argsInput) !! "account") = v) as Hwin.
  { intros pv v Hv. by rewrite (lookup_union_Some_l _ _ _ _ Hv). }
  destruct (Js.truthy (prop (default ∅ (contractFile w)) "SOURCE")); cbn [fst snd].
  - apply Hwin. rewrite lookup_insert_ne by done. apply lookup_singleton_eq.
  - apply Hwin. apply lookup_singleton_eq.
Qed.

(** X15: every chain submission of a run carries exactly one operation,
    never the code and the schema together: it is the [setcode] or the
    [setabi] operation of the system account, for the account of the run and
    authorised by that account's active permission.  When the .contract file
    presets the account, that account is the preset one, whatever the
    command line says. *)
Theorem submissions_are_single_operations (w : World) (st : State)
    (argsInput : gmap string string) (flags : Flags) :
  parse w (expectedArgs w) = Ok (argsInput, flags) →
  let account := prop (argsOf w argsInput) "account" in
  (Js.truthy (prop (default ∅ (contractFile w)) "ACCOUNT") = true →
   account = prop (default ∅ (contractFile w)) "ACCOUNT") ∧
  ∃ evs, trace (run w st).2 = (trace st ++ evs)%list ∧
    ∀ actions, Transact actions ∈ evs →
      ∃ a, actions = [a] ∧ act_account a = "eosio" ∧
           act_authorization a = [{| actor := account; permission := "active" |}] ∧
           ((act_name a = "setcode" ∧ ∃ code, act_data a = SetCodeData account 0 0 code) ∨
            (act_name a = "setabi" ∧ ∃ abi, act_data a = SetAbiData account abi)).
Proof.
  intros Hparse account. split; [apply argsOf_preset_account|].
  destruct (run_shape w st argsInput flags Hparse) as (pre & r & d & reached & Hpre & ->).
  eexists. split; [reflexivity|].
  intros actions [Hin|Hin]%elem_of_app.
  - by destruct (preparatory_no_transact pre _ Hpre Hin).
  - apply transact_in_deployEvents in Hin as (p & _ & [[_ ->]|[_ ->]]).
    + eexists. split; [done|]. split; [done|]. split; [done|]. left. split; [done|].
      by eexists.
    + eexists. split; [done|]. split; [done|]. split; [done|]. right. split; [done|].
      by eexists.
Qed.

Lemma submissions_are_single_operations_witness :
  prop (argsOf presetAccount sampleArgs) "account" = "carol" ∧
  ∃ evs, trace (run presetAccount localState).2 = (trace localState ++ evs)%list ∧
    ∀ actions, Transact actions ∈ evs →
      ∃ a, actions = [a] ∧ act_account a = "eosio" ∧
           act_authorization a = [{| actor := "carol"; permission := "active" |}] ∧
           ((act_name a = "setcode" ∧ ∃ code, act_data a = SetCodeData "carol" 0 0 code) ∨
            (act_name a = "setabi" ∧ ∃ abi, act_data a = SetAbiData "carol" abi)).
Proof.
  destruct (submissions_are_single_operations presetAccount localState sampleArgs noFlags
              eq_refl) as [Hacc Hev].
  split; [by apply Hacc | exact Hev].
Defined.

Lemma deployEvents_no_enable_before w args flags p :
  forallb (fun ev => negb (isEnable ev))
    (codeEvents w args flags p ++ schemaEvents w args flags p) = true ∧
  forallb (fun ev => negb (resolving ev))
    (codeEvents w args flags p ++ schemaEvents w args flags p
     ++ enableEvents args flags) = true.
Proof.
  assert (∀ l, forallb ofSubmission l = true →
               forallb (fun ev => negb (isEnable ev)) l = true ∧
               forallb (fun ev => negb (resolving ev)) l = true) as Hsub.
  { induction l as [|ev l IH]; simpl; [done|].
    intros [Hev Hl]%andb_true_iff. destruct (IH Hl) as [-> ->].
    destruct ev as [m| | |]; try done. by destruct m. }
  destruct (codeEvents_facts w args flags p) as [Hc _].
  destruct (schemaEvents_facts w args flags p) as [Hs _].
  destruct (Hsub _ Hc) as [Hc1 Hc2]. destruct (Hsub _ Hs) as [Hs1 Hs2].
  rewrite !forallb_app, Hc1, Hc2, Hs1, Hs2. split; [done|].
  unfold enableEvents. by destruct (disableInline flags).
Qed.

(** X16: the follow-up that enables inline actions is invoked at most once
    in a run, for the account of the run, and then it is the last event of
    the run, after the submissions; when it is disabled it is not invoked. *)
Theorem enable_inline_comes_last (w : World) (st : State)
    (argsInput : gmap string string) (flags : Flags) :
  parse w (expectedArgs w) = Ok (argsInput, flags) →
  ∃ evs, trace (run w st).2 = (trace st ++ evs)%list ∧
    ∀ before account later,
      evs = (before ++ EnableInline account :: later)%list →
      disableInline flags = false ∧ later = [] ∧
      account = prop (argsOf w argsInput) "account" ∧
      forallb (fun ev => negb (isEnable ev)) before = true.
Proof.
  intros Hparse.
  destruct (run_shape w st argsInput flags Hparse) as (pre & r & d & reached & Hpre & ->).
  eexists. split; [reflexivity|]. intros before account later Heq.
  assert (forallb (fun ev => negb (isEnable ev)) pre = true) as Hpre'.
  { apply forallb_forall. intros ev Hin%list_elem_of_In.
    by destruct (preparatory_no_transact pre ev Hpre Hin) as [_ ->]. }
  destruct reached as [p|]; simpl in Heq.
  2:{ exfalso. rewrite app_nil_r in Heq.
      apply (no_occurrence isEnable _ _ _ _ Heq eq_refl Hpre'). }
  destruct (deployEvents_no_enable_before w (argsOf w argsInput) flags p) as [Hmid _].
  unfold enableEvents in Heq. destruct (disableInline flags).
  { exfalso. rewrite app_nil_r in Heq.
    apply (no_occurrence isEnable _ _ _ _ Heq eq_refl).
    by rewrite forallb_app, Hpre', Hmid. }
  rewrite !app_assoc in Heq.
  apply (unique_occurrence isEnable) in Heq as (-> & [= ->] & ->);
    [ | done | by rewrite <- app_assoc, forallb_app, Hpre', Hmid | done ].
  split; [done|]. split; [done|]. split; [done|].
  by rewrite <- app_assoc, forallb_app, Hpre', Hmid.
Qed.

Lemma enable_inline_comes_last_witness :
  ∃ evs, trace (run bareWorld localState).2 = (trace localState ++ evs)%list ∧
         last evs = Some (EnableInline "alice").
Proof.
  destruct (enable_inline_comes_last bareWorld localState sampleArgs noFlags eq_refl)
    as (evs & Ht & _).
  exists evs. split; [exact Ht|]. simpl in Ht. rewrite <- Ht. reflexivity.
Defined.

Lemma deployConfirmed_clear w args flags st :
  clear flags = true →
  deployConfirmed w args flags st =
  (enableOutcome w args flags, after st (deployEvents w args flags (Some notPrepared))).
Proof.
  intros Hc. unfold deployConfirmed. rewrite Hc. cbn [negb].
  rewrite bind_eq. unfold mret at 1. unfold M_ret at 1. rewrite bind_eq.
  cbn [canDeploy notPrepared]. rewrite deploy_spec.
  by destruct (enableOutcome w args flags) as [[]|e].
Qed.

(** X17: in clear mode nothing is resolved, read, compared or asked about
    risk and the disk is left alone; what is submitted is the code
    replacement with an empty code and the schema replacement with an empty
    schema. *)
Theorem clear_mode_submits_empty_payloads (w : World) (st : State)
    (argsInput : gmap string string) (flags : Flags) :
  parse w (expectedArgs w) = Ok (argsInput, flags) →
  clear flags = true →
  let account := prop (argsOf w argsInput) "account" in
  disk (run w st).2 = disk st ∧
  ∃ evs, trace (run w st).2 = (trace st ++ evs)%list ∧
    forallb (fun ev => negb (resolving ev)) evs = true ∧
    ∀ actions, Transact actions ∈ evs →
      actions = [setcodeAction account EmptyString] ∨
      actions = [setabiAction account EmptyString].
Proof.
  intros Hparse Hclear account. pose proof (run_cases w st) as Hrun.
  rewrite Hparse in Hrun.
  assert (forallb (fun ev => negb (resolving ev)) (configEvents w) = true) as Hcfg.
  { unfold configEvents. destruct (contractFile w) as [c|]; [|done].
    by destruct (0 <? size c)%nat. }
  assert (∀ actions, Transact actions ∉ configEvents w) as Hcfg'.
  { intros actions Hin. destruct (configEvents_idle w) as [_ Hp].
    by destruct (preparatory_no_transact _ _ Hp Hin). }
  assert (∀ evs0, forallb (fun ev => negb (resolving ev)) evs0 = true →
            (∀ actions, Transact actions ∉ evs0) →
    let fin := deployConfirmed w (argsOf w argsInput) flags (after st evs0) in
    disk fin.2 = disk st ∧
    ∃ evs, trace fin.2 = (trace st ++ evs)%list ∧
      forallb (fun ev => negb (resolving ev)) evs = true ∧
      ∀ actions, Transact actions ∈ evs →
        actions = [setcodeAction account EmptyString] ∨
        actions = [setabiAction account EmptyString]) as Hblock.
  { intros evs0 Hev0 Hno fin. subst fin. rewrite deployConfirmed_clear by done.
    split; [done|]. eexists. split; [simpl; by rewrite <- app_assoc|].
    destruct (deployEvents_no_enable_before w (argsOf w argsInput) flags notPrepared)
      as [_ Hres].
    split; [by rewrite forallb_app, Hev0|].
    intros actions [Hin|Hin]%elem_of_app; [by apply Hno in Hin|].
    apply (transact_in_deployEvents _ _ _ (Some notPrepared)) in Hin
      as (p & [= <-] & [[_ ->]|[_ ->]]); auto. }
  destruct (wrongNetwork w).
  { rewrite Hrun. split; [done|]. exists (configEvents w).
    split; [done|]. split; [done|]. intros actions Hin. by apply Hcfg' in Hin. }
  destruct ((presets (default ∅ (contractFile w))).1.2).
  - rewrite Hrun. by apply Hblock.
  - destruct (answer w "confirmedContract"); rewrite Hrun.
    + apply Hblock; [by rewrite forallb_app, Hcfg|].
      intros actions [Hin|Hin]%elem_of_app; [by apply Hcfg' in Hin|].
      by apply list_elem_of_singleton in Hin.
    + split; [done|]. eexists. split; [done|]. split; [by rewrite forallb_app, Hcfg|].
      intros actions [Hin|Hin]%elem_of_app; [by apply Hcfg' in Hin|].
      by apply list_elem_of_singleton in Hin.
Qed.

Lemma clear_mode_submits_empty_payloads_witness :
  let cleared := withParse bareWorld (fun _ => Ok (sampleArgs, clearFlags)) in
  trace (run cleared emptyState).2 =
  [Prompt "confirmedContract" true;
   Transact [setcodeAction "alice" EmptyString]; Log (WasmSuccess "Cleared"); Log (ViewTX "tx1");
   Transact [setabiAction "alice" EmptyString]; Log (AbiSuccess "Cleared"); Log (ViewTX "tx1")].
Proof.
  intros cleared.
  destruct (clear_mode_submits_empty_payloads cleared emptyState sampleArgs clearFlags
              eq_refl eq_refl) as (_ & evs & Ht & _).
  rewrite Ht. simpl. simpl in Ht. rewrite <- Ht. reflexivity.
Defined.

Ltac gate_step H :=
  rewrite bind_eq in H;
  match type of H with
  | (let (_, _) := ?m ?s in _) = _ =>
      let Hem := fresh "Hem" in
      assert (emits (fun ev => negb (isPrompt "confirmedToContinue" ev)) m) as Hem
        by (unfold getDeployableFilesFromDir, stageFromGitHub, downloadExt,
              riskWarning, checkDataExists, probe, log; emits_auto);
      let evs := fresh "evs" in
      let Ht := fresh "Ht" in
      let Hp := fresh "Hp" in
      destruct (Hem s) as (evs & Ht & Hp); clear Hem;
      destruct (m s) as [[?|?] ?]; [simpl in Ht | discriminate H]
  end.

(** A preparation that lets the deployment go on after a declined risk
    confirmation never asked for it. *)
Lemma prepare_gate w args st p st1 :
  answer w "confirmedToContinue" = false →
  prepare w args st = (Ok p, st1) →
  canDeploy p = true →
  ∃ evs, trace st1 = (trace st ++ evs)%list ∧
         forallb (fun ev => negb (isPrompt "confirmedToContinue" ev)) evs = true.
Proof.
  intros Hans Hrun Hcan. unfold prepare in Hrun.
  do 6 gate_step Hrun.
  rewrite bind_eq in Hrun.
  match type of Hrun with
  | (let (_, _) := (if Js.truthy ?x then _ else _) _ in _) = _ => destruct (Js.truthy x)
  end.
  - unfold prompt, log, emit in Hrun. rewrite !bind_eq in Hrun.
    unfold mret at 1 in Hrun. unfold M_ret at 1 in Hrun. rewrite Hans in Hrun.
    rewrite bind_eq in Hrun. unfold lift at 1 in Hrun.
    destruct (serialize w _); [|discriminate Hrun].
    injection Hrun as <- <-. discriminate Hcan.
  - unfold log, emit in Hrun. rewrite !bind_eq in Hrun.
    unfold mret at 1 in Hrun. unfold M_ret at 1 in Hrun.
    unfold lift at 1 in Hrun.
    destruct (serialize w _); [|discriminate Hrun].
    injection Hrun as <- <-. cbn [trace].
    eexists. rewrite Ht4, Ht3, Ht2, Ht1, Ht0, Ht, <- !app_assoc.
    split; [reflexivity|].
    by rewrite !forallb_app, Hp, Hp0, Hp1, Hp2, Hp3, Hp4.
Qed.

Lemma cleanup_trace (p : Prepared) (st : State) :
  trace ((if Js.truthy (folderToCleanup p) then rmSync (folderToCleanup p)
          else mret tt) st).2 = trace st.
Proof.
  destruct (Js.truthy (folderToCleanup p)); [|done].
  unfold rmSync. by destruct (disk st !! folderToCleanup p).
Qed.

Lemma forallb_not_existsb {A} (q : A → bool) (l : list A) :
  forallb (fun a => negb (q a)) l = true → existsb q l = false.
Proof.
  induction l as [|a l IH]; simpl; [done|].
  intros [Ha Hl]%andb_true_iff. apply negb_true_iff in Ha. by rewrite Ha, IH.
Qed.

Lemma quiet_events (evs : list Event) :
  forallb preparatory evs = true →
  attempts evs = [] ∧ forallb (fun ev => negb (isEnable ev)) evs = true.
Proof.
  intros Hp. split; [by apply preparatory_quiet|].
  apply forallb_forall. intros ev Hin%list_elem_of_In.
  by destruct (preparatory_no_transact evs ev Hp Hin) as [_ ->].
Qed.

Lemma deployConfirmed_risk w args flags st :
  answer w "confirmedToContinue" = false →
  ∃ evs, trace (deployConfirmed w args flags st).2 = (trace st ++ evs)%list ∧
    (forallb (fun ev => negb (isPrompt "confirmedToContinue" ev)) evs = true ∨
     (attempts evs = [] ∧ forallb (fun ev => negb (isEnable ev)) evs = true)).
Proof.
  intros Hans.
  assert (∀ p, forallb (fun ev => negb (isPrompt "confirmedToContinue" ev))
                 (deployEvents w args flags (Some p)) = true) as Hdep.
  { intros p. destruct (deployEvents_no_enable_before w args flags p) as [_ Hres].
    simpl. apply forallb_forall. intros ev Hin.
    rewrite forallb_forall in Hres. specialize (Hres ev Hin).
    by destruct ev as [m|name ans| |]. }
  destruct (clear flags) eqn:Hclear.
  { rewrite deployConfirmed_clear by done. eexists. split; [reflexivity|]. left. apply Hdep. }
  unfold deployConfirmed. rewrite Hclear. cbn [negb]. rewrite bind_eq.
  destruct (prepare_emits w args st) as (evs & Ht & Hp).
  destruct (prepare w args st) as [[p|e] st1] eqn:Hprep; simpl in Ht.
  2:{ exists evs. split; [done|]. right. by apply quiet_events. }
  rewrite bind_eq. destruct (canDeploy p) eqn:Hcan.
  - rewrite deploy_spec.
    destruct (prepare_gate w args st p st1 Hans Hprep Hcan) as (evs' & Ht' & Hp').
    assert (evs' = evs) as -> by (apply (app_inv_head (trace st)); congruence).
    exists (evs ++ deployEvents w args flags (Some p))%list. split.
    + destruct (enableOutcome w args flags) as [[]|e].
      * rewrite cleanup_trace. simpl. by rewrite Ht, <- app_assoc.
      * simpl. by rewrite Ht, <- app_assoc.
    + left. by rewrite forallb_app, Hp', Hdep.
  - unfold mret at 1. unfold M_ret at 1. rewrite cleanup_trace.
    exists evs. split; [done|]. right. by apply quiet_events.
Qed.

(** X18: when the operator declines the risk confirmation, nothing is
    submitted and the follow-up is not invoked: a run in which that prompt
    was shown to such an operator has no submission attempt and no
    enable-inline event, whatever the modes. *)
Theorem declined_risk_submits_nothing (w : World) (st : State) :
  answer w "confirmedToContinue" = false →
  ∃ evs, trace (run w st).2 = (trace st ++ evs)%list ∧
    (existsb (isPrompt "confirmedToContinue") evs = true →
     attempts evs = [] ∧ forallb (fun ev => negb (isEnable ev)) evs = true).
Proof.
  intros Hans. pose proof (run_cases w st) as Hrun.
  destruct (configEvents_idle w) as [_ Hcfg].
  assert (∀ evs0, forallb preparatory evs0 = true →
            existsb (isPrompt "confirmedToContinue") evs0 = false →
            ∀ args flags,
    ∃ evs, trace (deployConfirmed w args flags (after st evs0)).2 = (trace st ++ evs)%list ∧
      (existsb (isPrompt "confirmedToContinue") evs = true →
       attempts evs = [] ∧ forallb (fun ev => negb (isEnable ev)) evs = true)) as Hblock.
  { intros evs0 Hq Hno args flags.
    destruct (deployConfirmed_risk w args flags (after st evs0) Hans) as (evs & Ht & Hor).
    exists (evs0 ++ evs)%list. split; [rewrite Ht; simpl; by rewrite app_assoc|].
    rewrite existsb_app, Hno. simpl. intros Hex.
    destruct Hor as [Hnone|[Hatt Hen]].
    - by rewrite (forallb_not_existsb _ _ Hnone) in Hex.
    - destruct (quiet_events evs0 Hq) as [Ha0 He0].
      by rewrite attempts_app, Ha0, Hatt, forallb_app, He0, Hen. }
  assert (existsb (isPrompt "confirmedToContinue") (configEvents w) = false) as Hno.
  { unfold configEvents. destruct (contractFile w) as [c|]; [|done].
    by destruct (0 <? size c)%nat. }
  assert (∀ evs0, forallb preparatory evs0 = true →
    ∃ evs, evs0 = evs ∧
      (existsb (isPrompt "confirmedToContinue") evs = true →
       attempts evs = [] ∧ forallb (fun ev => negb (isEnable ev)) evs = true)) as Hquiet.
  { intros evs0 Hq. exists evs0. split; [done|]. intros _. by apply quiet_events. }
  destruct (wrongNetwork w).
  { rewrite Hrun. destruct (Hquiet _ Hcfg) as (evs & <- & H). by exists (configEvents w). }
  destruct (parse w (expectedArgs w)) as [[argsInput flags]|e].
  2:{ rewrite Hrun. destruct (Hquiet _ Hcfg) as (evs & <- & H). by exists (configEvents w). }
  destruct ((presets (default ∅ (contractFile w))).1.2).
  - rewrite Hrun. by apply Hblock.
  - destruct (answer w "confirmedContract"); rewrite Hrun.
    + apply Hblock; [by rewrite forallb_app, Hcfg | by rewrite existsb_app, Hno].
    + eexists. split; [reflexivity|]. intros _. apply quiet_events.
      by rewrite forallb_app, Hcfg.
Qed.

Lemma declined_risk_submits_nothing_witness :
  ∃ evs, trace (run riskDeclined emptyState).2 = (trace emptyState ++ evs)%list ∧
         attempts evs = [] ∧ forallb (fun ev => negb (isEnable ev)) evs = true.
Proof.
  destruct (declined_risk_submits_nothing riskDeclined emptyState eq_refl)
    as (evs & Ht & Hquiet).
  exists evs. split; [exact Ht|]. apply Hquiet.
  simpl in Ht. rewrite <- Ht. reflexivity.
Defined.

(** ** RAM purchase *)

Lemma cmd_bind_eq {A B} (m : Cmd A) (f : A → Cmd B) (out : list Output) :
  (m ≫= f) out =
  match m out with
  | (Ok a, out') => f a out'
  | (Threw e, out') => (Threw e, out')
  end.
Proof. reflexivity. Qed.

Lemma printError_spec (e : Exn) (out : list Output) :
  printError e out = (Ok tt, (out ++ List.map Printed (reportOf e))%list).
Proof. unfold printError. by rewrite parseDetailsError_spec. Qed.

Lemma submitted_printed (evs : list Event) : submitted (List.map Printed evs) = [].
Proof. unfold submitted. induction evs as [|ev l IH]; simpl; [done | apply IH]. Qed.

(** The actor and the permission that [RamBuy.run] takes from its input. *)
Lemma ramBuy_spec (s : Services) (args : RamBuy.Args) (authorization : string)
    (out : list Output) :
  let pieces := if Js.truthy authorization then Js.splitOn "@" authorization
                else [RamBuy.buyer args] in
  let op := ramOperation (List.nth 0 pieces EmptyString)
              (Js.orElse (List.nth 1 pieces EmptyString) "active")
              (RamBuy.receiver args) (RamBuy.bytes args) in
  RamBuy.run s (Ok (args, authorization)) out =
  (Ok tt,
   (out ++ Submitted [op] ::
    purchaseOutcome s args (List.nth 0 pieces EmptyString) op)%list).
Proof.
  intros pieces op. unfold RamBuy.run. rewrite cmd_bind_eq. unfold attempt at 1.
  fold pieces. unfold catching. rewrite cmd_bind_eq. unfold put at 1.
  rewrite cmd_bind_eq. unfold attempt at 1. unfold purchaseOutcome.
  change (send s [op]) with (send s
    [{| op_account := "eosio"; op_name := "buyrambytes";
        op_authorization :=
          [{| actor := List.nth 0 pieces EmptyString;
              permission := Js.orElse (List.nth 1 pieces EmptyString) "active" |}];
        op_data := BuyRamBytes (List.nth 0 pieces EmptyString) (RamBuy.receiver args)
                     (JsString (RamBuy.bytes args)) |}]).
  destruct (send s _) as [id|e].
  - unfold put. rewrite !cmd_bind_eq. by rewrite <- !app_assoc.
  - rewrite printError_spec. by rewrite <- !app_assoc.
Qed.


Lemma splitOn_at (a b : string) :
  atFree a → atFree b → Js.splitOn "@" (a ++ "@" ++ b) = [a; b].
Proof.
  intros Ha Hb. change ("@" ++ b) with (String "@" b).
  rewrite splitOn_app by done. by rewrite (splitOn_free _ _ Hb).
Qed.

(** X20: the authorization flag decides who pays.  Given as
    [actor@permission] it makes [actor] the payer and the authorising actor,
    with that permission, or with [active] when the text after the [@] is
    empty; the buyer argument is then not used at all.  Without the flag the
    buyer pays with the [active] permission. *)
Theorem ram_purchase_authorization (s : Services) (args : RamBuy.Args)
    (out : list Output) :
  (∀ actor permission, atFree actor → atFree permission →
     ∃ news,
       RamBuy.run s (Ok (args, actor ++ "@" ++ permission)) out
       = (Ok tt,
          (out ++ Submitted [ramOperation actor (Js.orElse permission "active")
                               (RamBuy.receiver args) (RamBuy.bytes args)] :: news)%list) ∧
       submitted news = []) ∧
  (∃ news,
     RamBuy.run s (Ok (args, EmptyString)) out
     = (Ok tt,
        (out ++ Submitted [ramOperation (RamBuy.buyer args) "active"
                             (RamBuy.receiver args) (RamBuy.bytes args)] :: news)%list) ∧
     submitted news = []).
Proof.
  assert (∀ actor op, submitted (purchaseOutcome s args actor op) = []) as Hnone.
  { intros actor op. unfold purchaseOutcome.
    destruct (send s [op]); [done | apply submitted_printed]. }
  split.
  - intros actor permission Ha Hp. eexists. split; [|apply Hnone].
    rewrite ramBuy_spec.
    assert (Js.truthy (actor ++ "@" ++ permission) = true) as ->.
    { by destruct actor. }
    by rewrite (splitOn_at _ _ Ha Hp).
  - eexists. split; [|apply Hnone]. by rewrite ramBuy_spec.
Qed.

Lemma ram_purchase_authorization_witness :
  ∃ news,
    RamBuy.run sampleServices
      (Ok ({| RamBuy.buyer := "alice"; RamBuy.receiver := "bob"; RamBuy.bytes := "10000" |},
           "payer@owner")) []
    = (Ok tt, Submitted [ramOperation "payer" "owner" "bob" "10000"] :: news).
Proof.
  destruct (ram_purchase_authorization sampleServices
              {| RamBuy.buyer := "alice"; RamBuy.receiver := "bob"; RamBuy.bytes := "10000" |} [])
    as [Hflag _].
  destruct (Hflag "payer" "owner" eq_refl eq_refl) as (news & Hrun & _).
  exists news. exact Hrun.
Defined.


(** ** Funded account creation

    The statements about the typed account name take it to be made of ASCII
    characters, where the length and the case folding of this model are
    those of JavaScript strings. *)

Lemma badDigit_not_nameChar (c : ascii) :
  CreateFundedAccount.badDigit c = true → CreateFundedAccount.nameChar c = false.
Proof.
  destruct c as [[] [] [] [] [] [] [] []]; vm_compute; congruence.
Qed.

Lemma length_chars (s : string) : length (JsClass.chars s) = String.length s.
Proof. induction s as [|c s IH]; simpl; [done | by rewrite IH]. Qed.

Lemma existsb_forallb_false {A} (p q : A → bool) (l : list A) :
  (∀ a, p a = true → q a = false) → existsb p l = true → forallb q l = false.
Proof.
  intros Hpq. induction l as [|a l IH]; simpl; [done|].
  intros [Hp|Hl]%orb_true_iff.
  - by rewrite (Hpq a Hp).
  - rewrite (IH Hl). apply andb_false_r.
Qed.

Lemma upperCase_not_nameChar (c : ascii) :
  CreateFundedAccount.upperCase c = true → CreateFundedAccount.nameChar c = false.
Proof.
  destruct c as [[] [] [] [] [] [] [] []]; vm_compute; congruence.
Qed.


Lemma createAccount_spec (s : Services) (flags : CreateFundedAccount.Flags)
    (accountName : string) (out : list Output) :
  let ops := CreateFundedAccount.actions flags accountName (chosenKey s flags) in
  CreateFundedAccount.createAccount s flags accountName out =
  match (if Js.truthy (CreateFundedAccount.key flags) then Ok tt
         else addPrivateKey s (newKeyPair s).1.2) with
  | Threw e => (Threw e, (out ++ keyOutputs s flags)%list)
  | Ok _ =>
      match send s ops with
      | Threw e => (Threw e, (out ++ keyOutputs s flags ++ [Submitted ops])%list)
      | Ok _ => (Ok tt, (out ++ keyOutputs s flags ++ [Submitted ops]
                         ++ createdLines s flags accountName)%list)
      end
  end.
Proof.
  intros ops. subst ops.
  unfold CreateFundedAccount.createAccount, CreateFundedAccount.choosePublicKey,
    chosenKey, keyOutputs, createdLines.
  rewrite cmd_bind_eq.
  destruct (Js.truthy (CreateFundedAccount.key flags)); cbn [negb].
  - unfold mret at 1. unfold Cmd_ret at 1. rewrite cmd_bind_eq. unfold put at 1.
    rewrite cmd_bind_eq. unfold attempt at 1.
    destruct (send s _) as [id|e]; [|done].
    destruct (Js.truthy (CreateFundedAccount.owner flags));
      unfold put, mret, Cmd_ret; rewrite !cmd_bind_eq; simpl;
      by rewrite <- !app_assoc.
  - destruct (newKeyPair s) as [[publicKey privateKey] phrase]. cbn [fst snd].
    unfold put at 1 2 3. rewrite !cmd_bind_eq. unfold attempt at 1.
    destruct (addPrivateKey s privateKey) as [[]|e]; [|by rewrite <- !app_assoc].
    unfold mret at 1. unfold Cmd_ret at 1. rewrite cmd_bind_eq. unfold put at 1.
    rewrite cmd_bind_eq. unfold attempt at 1.
    destruct (send s _) as [id|e]; [|by rewrite <- !app_assoc].
    destruct (Js.truthy (CreateFundedAccount.owner flags));
      unfold put, mret, Cmd_ret; rewrite !cmd_bind_eq; simpl;
      by rewrite <- !app_assoc.
Qed.

Lemma checkName_verdict (account : string) (out : list Output) :
  match (CreateFundedAccount.checkName account out).1 with
  | Ok accountName =>
      accountName = Js.toLowerCase account ∧ wellFormedName accountName
  | Threw _ => ¬ wellFormedName (Js.toLowerCase account)
  end.
Proof.
  unfold CreateFundedAccount.checkName, wellFormedName.
  set (name := Js.toLowerCase account).
  destruct ((String.length name <? 4)%nat || (12 <? String.length name)%nat) eqn:Hlen.
  { simpl. intros [Hl _]. apply orb_true_iff in Hlen as [H|H]; apply Nat.ltb_lt in H; lia. }
  apply orb_false_iff in Hlen as [H4%Nat.ltb_ge H12%Nat.ltb_ge].
  destruct (JsClass.testAny CreateFundedAccount.badDigit name) eqn:Hdigit.
  { simpl. intros [_ Hall].
    by rewrite (existsb_forallb_false _ _ _ badDigit_not_nameChar Hdigit) in Hall. }
  rewrite cmd_bind_eq.
  assert (∃ out', (if JsClass.testAny CreateFundedAccount.upperCase account
                   then put (Line ("Note: Account name converted to lowercase: " ++ name))
                   else mret tt) out = (Ok tt, out')) as [out' ->].
  { destruct (JsClass.testAny CreateFundedAccount.upperCase account); by eexists. }
  unfold JsClass.testAll.
  assert (String.eqb name EmptyString = false) as ->.
  { apply String.eqb_neq. intros Hn. rewrite Hn in H4. simpl in H4. lia. }
  cbn [negb andb].
  destruct (forallb CreateFundedAccount.nameChar (JsClass.chars name)) eqn:Hall; simpl.
  - done.
  - by intros [_ ?].
Qed.

Lemma checkName_output (account : string) (out : list Output) :
  ∃ note, (CreateFundedAccount.checkName account out).2 = (out ++ note)%list ∧
          forallb isLine note = true.
Proof.
  unfold CreateFundedAccount.checkName.
  destruct (_ || _); [exists []; by rewrite app_nil_r|].
  destruct (JsClass.testAny CreateFundedAccount.badDigit _);
    [exists []; by rewrite app_nil_r|].
  rewrite cmd_bind_eq.
  destruct (JsClass.testAny CreateFundedAccount.upperCase account).
  - unfold put at 1. eexists [_]. by destruct (negb _).
  - unfold mret at 1. unfold Cmd_ret at 1. exists []. rewrite app_nil_r.
    by destruct (negb _).
Qed.

Lemma checkName_accepts (account : string) (out : list Output) :
  wellFormedName (Js.toLowerCase account) →
  CreateFundedAccount.checkName account out
  = (Ok (Js.toLowerCase account), (out ++ lowercaseNote account)%list).
Proof.
  intros [[H4 H12] Hall]. unfold CreateFundedAccount.checkName, lowercaseNote.
  set (name := Js.toLowerCase account) in *.
  assert ((String.length name <? 4)%nat || (12 <? String.length name)%nat = false) as ->.
  { apply orb_false_iff. split; apply Nat.ltb_ge; lia. }
  destruct (JsClass.testAny CreateFundedAccount.badDigit name) eqn:Hdigit.
  { by rewrite (existsb_forallb_false _ _ _ badDigit_not_nameChar Hdigit) in Hall. }
  rewrite cmd_bind_eq. unfold JsClass.testAll. rewrite Hall.
  assert (String.eqb name EmptyString = false) as ->.
  { apply String.eqb_neq. intros Hn. rewrite Hn in H4. simpl in H4. lia. }
  cbn [negb andb].
  destruct (JsClass.testAny CreateFundedAccount.upperCase account).
  - done.
  - unfold mret at 1. unfold Cmd_ret at 1. by rewrite app_nil_r.
Qed.

Lemma run_unfolded (s : Services) (account : string)
    (flags : CreateFundedAccount.Flags) (out : list Output) :
  CreateFundedAccount.run s (Ok (account, flags)) out =
  match CreateFundedAccount.checkName account out with
  | (Ok n, out1) =>
      if (CreateFundedAccount.ram flags <? 3000)%Z
      then (Threw (newError
             "RAM must be at least 3000 bytes for a new account to function."),
            out1)
      else match get_account s n with
           | Ok _ => (Ok tt, (out1 ++ [Line ("Account " ++ n ++ " already exists")])%list)
           | Threw _ => CreateFundedAccount.createAccount s flags n out1
           end
  | (Threw e, out1) => (Threw e, out1)
  end.
Proof.
  unfold CreateFundedAccount.run. rewrite cmd_bind_eq. unfold attempt at 1.
  rewrite cmd_bind_eq.
  destruct (CreateFundedAccount.checkName account out) as [[n|e] out1]; [|done].
  destruct (CreateFundedAccount.ram flags <? 3000)%Z; [done|].
  by destruct (get_account s n).
Qed.

(** The ways the creation command can go. *)
Lemma create_run_cases (s : Services) (account : string)
    (flags : CreateFundedAccount.Flags) (out : list Output) :
  let accountName := Js.toLowerCase account in
  (∃ e note, forallb isLine note = true ∧
     CreateFundedAccount.run s (Ok (account, flags)) out = (Threw e, (out ++ note)%list) ∧
     (¬ wellFormedName accountName ∨ (CreateFundedAccount.ram flags < 3000)%Z)) ∨
  (wellFormedName accountName ∧ (3000 ≤ CreateFundedAccount.ram flags)%Z ∧
   get_account s accountName = Ok tt ∧
   CreateFundedAccount.run s (Ok (account, flags)) out
   = (Ok tt, (out ++ lowercaseNote account
              ++ [Line ("Account " ++ accountName ++ " already exists")])%list)) ∨
  (wellFormedName accountName ∧ (3000 ≤ CreateFundedAccount.ram flags)%Z ∧
   (∃ e, get_account s accountName = Threw e) ∧
   CreateFundedAccount.run s (Ok (account, flags)) out
   = CreateFundedAccount.createAccount s flags accountName
       (out ++ lowercaseNote account)%list).
Proof.
  intros name. rewrite run_unfolded.
  pose proof (checkName_verdict account out) as Hv.
  destruct (checkName_output account out) as (note & Hnote & Hlines).
  destruct (CreateFundedAccount.checkName account out) as [[n|e] out1] eqn:Hcheck;
    simpl in Hv, Hnote; subst out1.
  2:{ left. exists e, note. split; [done|]. split; [done | by left]. }
  destruct Hv as [-> Hwf]. fold name in Hwf, Hcheck |- *.
  destruct (CreateFundedAccount.ram flags <? 3000)%Z eqn:Hram.
  { left. eexists _, note. split; [done|]. split; [done|]. right. by apply Z.ltb_lt. }
  apply Z.ltb_ge in Hram.
  rewrite (checkName_accepts account out Hwf) in Hcheck.
  injection Hcheck as Hcheck. rewrite <- Hcheck.
  destruct (get_account s name) as [[]|e] eqn:Hacc.
  - right. left. split; [done|]. split; [done|]. split; [done|].
    by rewrite <- app_assoc.
  - right. right. split; [done|]. split; [done|]. split; [by eexists | done].
Qed.

Lemma submitted_app (a b : list Output) :
  submitted (a ++ b) = (submitted a ++ submitted b)%list.
Proof. apply omap_app. Qed.

Lemma submitted_cons (ops : list Operation) (l : list Output) :
  submitted (Submitted ops :: l) = ops :: submitted l.
Proof. reflexivity. Qed.

Lemma submitted_lines (l : list Output) : forallb isLine l = true → submitted l = [].
Proof.
  induction l as [|o l IH]; [done|]. simpl. intros [Ho Hl]%andb_true_iff.
  destruct o; try done. apply (IH Hl).
Qed.

Lemma submitted_lowercaseNote (account : string) : submitted (lowercaseNote account) = [].
Proof. unfold lowercaseNote. by destruct (JsClass.testAny _ _). Qed.

Lemma submitted_keyOutputs (s : Services) (flags : CreateFundedAccount.Flags) :
  submitted (keyOutputs s flags) = [].
Proof. unfold keyOutputs. by destruct (Js.truthy _). Qed.

Lemma submitted_createdLines (s : Services) (flags : CreateFundedAccount.Flags)
    (accountName : string) :
  submitted (createdLines s flags accountName) = [].
Proof. unfold createdLines. by destruct (Js.truthy _). Qed.

(** X21: the name check accepts exactly the well-formed names.  For a typed
    name of ASCII characters it returns the name in lower case when that has
    4 to 12 characters, all of them lower-case letters, digits 1 to 5 or
    periods, and throws otherwise. *)
Theorem account_name_verdict (account : string) (out : list Output) :
  JsClass.isAscii account = true →
  match (CreateFundedAccount.checkName account out).1 with
  | Ok accountName =>
      accountName = Js.toLowerCase account ∧ wellFormedName accountName
  | Threw _ => ¬ wellFormedName (Js.toLowerCase account)
  end.
Proof. intros _. apply checkName_verdict. Qed.

Lemma account_name_verdict_witness :
  JsClass.isAscii "Agent.11" = true ∧
  match (CreateFundedAccount.checkName "Agent.11" []).1 with
  | Ok accountName =>
      accountName = Js.toLowerCase "Agent.11" ∧ wellFormedName accountName
  | Threw _ => ¬ wellFormedName (Js.toLowerCase "Agent.11")
  end.
Proof. split; [reflexivity | apply (account_name_verdict "Agent.11" []); reflexivity]. Defined.

(** X22: the note about the conversion to lower case is printed exactly
    when the typed name has an upper-case letter and passes the checks of
    the length and of the digits 0 and 6 to 9, also when the name is then
    refused for another character; the check prints nothing else. *)
Theorem lowercase_note_is_printed (account : string) (out : list Output) :
  JsClass.isAscii account = true →
  let accountName := Js.toLowerCase account in
  (CreateFundedAccount.checkName account out).2 =
  (out ++
   if negb ((String.length accountName <? 4)%nat || (12 <? String.length accountName)%nat)
      && negb (JsClass.testAny CreateFundedAccount.badDigit accountName)
   then lowercaseNote account
   else [])%list.
Proof.
  intros _ name. unfold CreateFundedAccount.checkName, lowercaseNote. fold name.
  destruct ((String.length name <? 4)%nat || (12 <? String.length name)%nat).
  { simpl. by rewrite app_nil_r. }
  destruct (JsClass.testAny CreateFundedAccount.badDigit name).
  { simpl. by rewrite app_nil_r. }
  rewrite cmd_bind_eq. cbn [negb andb].
  destruct (JsClass.testAny CreateFundedAccount.upperCase account).
  - unfold put at 1. by destruct (negb _).
  - unfold mret at 1. unfold Cmd_ret at 1. rewrite app_nil_r. by destruct (negb _).
Qed.

Lemma lowercase_note_is_printed_witness :
  JsClass.isAscii "My_acct" = true ∧
  (CreateFundedAccount.checkName "My_acct" []).2 =
    [Line "Note: Account name converted to lowercase: my_acct"] ∧
  ∃ e, (CreateFundedAccount.checkName "My_acct" []).1 = Threw e.
Proof.
  split; [reflexivity|]. split.
  - exact (lowercase_note_is_printed "My_acct" [] eq_refl).
  - by eexists.
Defined.

(** X23: an accepted name comes back unchanged from a second check, which
    prints no note: the accepted names are the fixed points of the check. *)
Theorem accepted_name_is_stable (account accountName : string) (out out' : list Output) :
  JsClass.isAscii account = true →
  CreateFundedAccount.checkName account out = (Ok accountName, out') →
  CreateFundedAccount.checkName accountName out' = (Ok accountName, out').
Proof.
  intros _ Hcheck. pose proof (checkName_verdict account out) as Hv.
  rewrite Hcheck in Hv. destruct Hv as [-> Hwf].
  pose proof Hwf as Hwf'. rewrite <- (toLowerCase_idem account) in Hwf'.
  rewrite (checkName_accepts _ out' Hwf'). rewrite toLowerCase_idem.
  assert (lowercaseNote (Js.toLowerCase account) = []) as ->; [|by rewrite app_nil_r].
  unfold lowercaseNote.
  assert (JsClass.testAny CreateFundedAccount.upperCase (Js.toLowerCase account) = false)
    as ->; [|done].
  destruct Hwf as [_ Hall]. unfold JsClass.testAny.
  destruct (existsb _ _) eqn:Hup; [|done].
  rewrite (existsb_forallb_false _ _ _ upperCase_not_nameChar Hup) in Hall. done.
Qed.

Lemma accepted_name_is_stable_witness :
  CreateFundedAccount.checkName "agent.11"
    [Line "Note: Account name converted to lowercase: agent.11"]
  = (Ok "agent.11", [Line "Note: Account name converted to lowercase: agent.11"]).
Proof.
  apply (accepted_name_is_stable "Agent.11" "agent.11" []); reflexivity.
Defined.

(** X24: nothing is submitted unless every check passed.  When the creation
    command submits, the typed name in lower case is well formed, the RAM is
    at least 3000 bytes, the chain did not know the account, and a generated
    key was stored; the command then submits once, the three operations
    built from the flags, that name and the chosen key. *)
Theorem creation_is_guarded (s : Services) (account : string)
    (flags : CreateFundedAccount.Flags) (r : res unit) (outs : list Output) :
  JsClass.isAscii account = true →
  CreateFundedAccount.run s (Ok (account, flags)) [] = (r, outs) →
  submitted outs ≠ [] →
  let accountName := Js.toLowerCase account in
  wellFormedName accountName ∧
  (3000 ≤ CreateFundedAccount.ram flags)%Z ∧
  (∃ e, get_account s accountName = Threw e) ∧
  keyStored s flags ∧
  submitted outs = [CreateFundedAccount.actions flags accountName (chosenKey s flags)].
Proof.
  intros _ Hrun Hsub name.
  destruct (create_run_cases s account flags [])
    as [(e & note & Hlines & Hr & _)|[(_ & _ & _ & Hr)|(Hwf & Hram & Hacc & Hr)]];
    rewrite Hr in Hrun.
  - injection Hrun as _ <-. destruct Hsub. simpl. by apply submitted_lines.
  - injection Hrun as _ <-. destruct Hsub. simpl.
    by rewrite submitted_app, submitted_lowercaseNote.
  - rewrite createAccount_spec in Hrun. fold name in Hrun. simpl in Hrun.
    split; [done|]. split; [done|]. split; [done|]. unfold keyStored.
    destruct (Js.truthy (CreateFundedAccount.key flags)) eqn:Hkey.
    + split; [done|].
      destruct (send s _); injection Hrun as _ <-;
        by rewrite !submitted_app, submitted_lowercaseNote, submitted_keyOutputs,
          ?submitted_cons, ?submitted_createdLines.
    + destruct (addPrivateKey s _) as [[]|e].
      * split; [done|].
        destruct (send s _); injection Hrun as _ <-;
          by rewrite !submitted_app, submitted_lowercaseNote, submitted_keyOutputs,
            ?submitted_cons, ?submitted_createdLines.
      * injection Hrun as _ <-. destruct Hsub.
        by rewrite submitted_app, submitted_lowercaseNote, submitted_keyOutputs.
Qed.

Lemma creation_is_guarded_witness :
  submitted (CreateFundedAccount.run sampleServices (Ok ("Agent.11", sampleCreate)) []).2
  = [CreateFundedAccount.actions sampleCreate "agent.11" "PUB_K1_generated"].
Proof.
  refine (proj2 (proj2 (proj2 (proj2
    (creation_is_guarded sampleServices "Agent.11" sampleCreate _ _ eq_refl eq_refl _))))).
  vm_compute. discriminate.
Defined.

(** X25: an account that the chain already knows is left alone.  The command
    says so and ends normally: no key is generated, shown or stored and
    nothing is submitted. *)
Theorem existing_account_is_left_alone (s : Services) (account : string)
    (flags : CreateFundedAccount.Flags) (out : list Output) :
  JsClass.isAscii account = true →
  let accountName := Js.toLowerCase account in
  wellFormedName accountName →
  (3000 ≤ CreateFundedAccount.ram flags)%Z →
  get_account s accountName = Ok tt →
  CreateFundedAccount.run s (Ok (account, flags)) out
  = (Ok tt, (out ++ lowercaseNote account
             ++ [Line ("Account " ++ accountName ++ " already exists")])%list).
Proof.
  intros _ name Hwf Hram Hacc.
  destruct (create_run_cases s account flags out)
    as [(e & note & _ & _ & [Hno|Hlow])|[(_ & _ & _ & Hr)|(_ & _ & [e He] & _)]].
  - done.
  - lia.
  - done.
  - fold name in He. by rewrite Hacc in He.
Qed.

Lemma existing_account_is_left_alone_witness :
  CreateFundedAccount.run sampleServices (Ok ("Alice", sampleCreate)) []
  = (Ok tt, [Line "Note: Account name converted to lowercase: alice";
             Line "Account alice already exists"]).
Proof.
  apply (existing_account_is_left_alone sampleServices "Alice" sampleCreate []);
    [reflexivity | split; [simpl; lia | reflexivity] | simpl; lia | reflexivity].
Defined.

(** X26: with a public key given by flag the command generates, shows and
    stores no key, whatever else happens; what it submits, if anything, gives
    that key to the owner and to the active permission of the new account. *)
Theorem supplied_key_is_used_as_is (s : Services) (account : string)
    (flags : CreateFundedAccount.Flags) (r : res unit) (outs : list Output) :
  JsClass.isAscii account = true →
  Js.truthy (CreateFundedAccount.key flags) = true →
  CreateFundedAccount.run s (Ok (account, flags)) [] = (r, outs) →
  existsb isKeyOutput outs = false ∧
  (submitted outs = [] ∨
   submitted outs = [CreateFundedAccount.actions flags (Js.toLowerCase account)
                       (CreateFundedAccount.key flags)]).
Proof.
  intros _ Hkey Hrun.
  assert (∀ l, forallb isLine l = true → existsb isKeyOutput l = false) as Hquiet.
  { induction l as [|o l IH]; [done|]. simpl. intros [Ho Hl]%andb_true_iff.
    destruct o; try done. apply (IH Hl). }
  assert (existsb isKeyOutput (lowercaseNote account) = false) as Hnote.
  { unfold lowercaseNote. by destruct (JsClass.testAny _ _). }
  destruct (create_run_cases s account flags [])
    as [(e & note & Hlines & Hr & _)|[(_ & _ & _ & Hr)|(Hwf & Hram & Hacc & Hr)]];
    rewrite Hr in Hrun.
  - injection Hrun as _ <-. simpl. split; [by apply Hquiet|]. left.
    by apply submitted_lines.
  - injection Hrun as _ <-. simpl. rewrite existsb_app, Hnote. split; [done|]. left.
    by rewrite submitted_app, submitted_lowercaseNote.
  - rewrite createAccount_spec in Hrun. unfold chosenKey, keyOutputs in Hrun.
    rewrite Hkey in Hrun. simpl in Hrun.
    destruct (send s _); injection Hrun as _ <-.
    + rewrite !existsb_app, Hnote. split.
      * unfold createdLines. by destruct (Js.truthy (CreateFundedAccount.owner flags)).
      * right. by rewrite !submitted_app, submitted_lowercaseNote, submitted_cons,
          submitted_createdLines.
    + rewrite !existsb_app, Hnote. split; [done|]. right.
      by rewrite !submitted_app, submitted_lowercaseNote.
Qed.

Lemma supplied_key_is_used_as_is_witness :
  let flags := {| CreateFundedAccount.creator := "funder";
                  CreateFundedAccount.key := "PUB_K1_mine";
                  CreateFundedAccount.ram := 8192;
                  CreateFundedAccount.owner := EmptyString |} in
  let outs := (CreateFundedAccount.run sampleServices (Ok ("myaccount", flags)) []).2 in
  existsb isKeyOutput outs = false ∧
  (submitted outs = [] ∨
   submitted outs = [CreateFundedAccount.actions flags (Js.toLowerCase "myaccount")
                       (CreateFundedAccount.key flags)]).
Proof.
  intros flags outs.
  apply (supplied_key_is_used_as_is sampleServices "myaccount" flags
           (CreateFundedAccount.run sampleServices (Ok ("myaccount", flags)) []).1);
    reflexivity.
Defined.

(** X27: the outcomes of a creation without a key flag, for a well-formed
    name that the chain does not know yet.  The generated key pair is shown
    and handed to the key store first.  When the store refuses it the command
    throws that error and submits nothing; when the chain refuses the
    transaction the command throws that error with the key already stored and
    prints no line about a created account; only an accepted transaction is
    followed by those lines. *)
Theorem generated_key_is_stored_first (s : Services) (account : string)
    (flags : CreateFundedAccount.Flags) (out : list Output) :
  JsClass.isAscii account = true →
  let accountName := Js.toLowerCase account in
  let ops := CreateFundedAccount.actions flags accountName (newKeyPair s).1.1 in
  let shown := (out ++ lowercaseNote account ++ keyOutputs s flags)%list in
  wellFormedName accountName →
  (3000 ≤ CreateFundedAccount.ram flags)%Z →
  (∃ e, get_account s accountName = Threw e) →
  Js.truthy (CreateFundedAccount.key flags) = false →
  last (keyOutputs s flags) = Some (StoredKey (newKeyPair s).1.2) ∧
  CreateFundedAccount.run s (Ok (account, flags)) out =
  match addPrivateKey s (newKeyPair s).1.2, send s ops with
  | Threw e, _ => (Threw e, shown)
  | Ok _, Threw e => (Threw e, (shown ++ [Submitted ops])%list)
  | Ok _, Ok _ =>
      (Ok tt, (shown ++ [Submitted ops] ++ createdLines s flags accountName)%list)
  end.
Proof.
  intros _ name ops shown Hwf Hram [e He] Hkey.
  split; [unfold keyOutputs; by rewrite Hkey|].
  destruct (create_run_cases s account flags out)
    as [(e' & note & _ & _ & [Hno|Hlow])|[(_ & _ & Hacc & _)|(_ & _ & _ & Hr)]].
  - done.
  - lia.
  - fold name in Hacc. by rewrite He in Hacc.
  - rewrite Hr, createAccount_spec. fold name. unfold chosenKey. rewrite Hkey.
    fold ops. subst shown.
    destruct (addPrivateKey s _) as [[]|e1]; [|by rewrite <- !app_assoc].
    destruct (send s ops); by rewrite <- !app_assoc.
Qed.

Lemma generated_key_is_stored_first_witness :
  CreateFundedAccount.run sampleServices (Ok ("Agent.11", sampleCreate)) []
  = (Ok tt,
     ([Line "Note: Account name converted to lowercase: agent.11"]
      ++ keyOutputs sampleServices sampleCreate
      ++ [Submitted (CreateFundedAccount.actions sampleCreate "agent.11" "PUB_K1_generated")]
      ++ createdLines sampleServices sampleCreate "agent.11")%list).
Proof.
  refine (proj2 (generated_key_is_stored_first sampleServices "Agent.11" sampleCreate []
                   eq_refl _ _ _ eq_refl)).
  - split; [simpl; lia | reflexivity].
  - simpl; lia.
  - by eexists.
Defined.
